(** * The ontology loader/indexer of the OWL viewer (owl-viewer/src/App.tsx)

    A shallow embedding of [parseOWL], [getChildNodes], [hasMatchingChild]
    and [filteredRootNodes], and the properties of the index they build and
    query.

    Modelling choices:
    - JavaScript strings are Rocq strings.
    - The browser supplies the XML parser, the collation of
      [localeCompare] and the case mapping of [toLowerCase]; the three are
      interfaces ([DOMParser], [Collator], [CaseFolding]).
    - [classMap] is a JavaScript [Map], which iterates in insertion order:
      an association list.  The two edge maps are only read and written by
      key: finite maps.
    - A thrown exception is [None] in the option monad.
    - [hasMatchingChild] recurses without a bound; it is modelled with a
      recursion budget, and [None] there means that the budget ran out. *)

From Stdlib Require Import Ascii String ZArith OrderedTypeEx.
From stdpp Require Import base option list strings gmap sorting.

#[local] Set Warnings "-register-all".

(** ** The DOM as the parser hands it over *)

Inductive Node : Type :=
| Element (tagName : string) (attributes : list (string * string))
          (childNodes : list Node)
| TextNode (data : string).

(** A document is the list of its top-level nodes. *)
Definition Document : Type := list Node.

(** An element followed by the elements below it, in document order. *)
Fixpoint elementsIn (n : Node) : list Node :=
  match n with
  | Element _ _ kids => n :: flat_map elementsIn kids
  | TextNode _ => []
  end.

Definition hasTag (name : string) (n : Node) : bool :=
  match n with
  | Element t _ _ => String.eqb t name
  | TextNode _ => false
  end.

(** [element.getElementsByTagName(name)]: the descendants, not the element. *)
Definition getElementsByTagName (n : Node) (name : string) : list Node :=
  match n with
  | Element _ _ kids => List.filter (hasTag name) (flat_map elementsIn kids)
  | TextNode _ => []
  end.

(** [document.getElementsByTagName(name)]. *)
Definition docGetElementsByTagName (d : Document) (name : string) : list Node :=
  List.filter (hasTag name) (flat_map elementsIn d).

Fixpoint assoc {V : Type} (k : string) (l : list (string * V)) : option V :=
  match l with
  | [] => None
  | (k', v) :: r => if String.eqb k' k then Some v else assoc k r
  end.

(** [element.getAttribute(name)]: [None] is JavaScript's [null]. *)
Definition getAttribute (n : Node) (name : string) : option string :=
  match n with
  | Element _ attrs _ => assoc name attrs
  | TextNode _ => None
  end.

(** [node.textContent]: the text below the node, concatenated. *)
Fixpoint textContent (n : Node) : string :=
  match n with
  | Element _ _ kids => fold_right (fun k acc => textContent k +:+ acc) "" kids
  | TextNode s => s
  end.

(** ** JavaScript strings *)

Definition isEmpty (s : string) : bool :=
  match s with "" => true | _ => false end.

(** [a || b] on values that are a string, [null] or [undefined]: the empty
    string is falsy. *)
Definition jsOr (a b : option string) : option string :=
  match a with
  | Some s => if isEmpty s then b else Some s
  | None => b
  end.

(** [a || d] where [d] is a string. *)
Definition orElse (a : option string) (d : string) : string :=
  match a with
  | Some s => if isEmpty s then d else s
  | None => d
  end.

(** [s.split(sep)] for a one-character separator. *)
Fixpoint split (sep : ascii) (s : string) : list string :=
  match s with
  | "" => [""]
  | String c r =>
      if Ascii.eqb c sep then "" :: split sep r
      else match split sep r with
           | h :: t => String c h :: t
           | [] => [String c ""]
           end
  end.

(** [array.pop()] read for its result only: the last element, if any. *)
Definition pop {A : Type} (l : list A) : option A := last l.

Definition lowerAscii (c : ascii) : ascii :=
  let n := nat_of_ascii c in
  if (65 <=? n)%nat && (n <=? 90)%nat then ascii_of_nat (n + 32) else c.

(** The letters A to Z folded, every other character kept. *)
Fixpoint asciiLower (s : string) : string :=
  match s with
  | "" => ""
  | String c r => String (lowerAscii c) (asciiLower r)
  end.

(** Text of ASCII characters only. *)
Fixpoint isAscii (s : string) : bool :=
  match s with
  | "" => true
  | String c r => (nat_of_ascii c <? 128)%nat && isAscii r
  end.

Fixpoint startsWith (s t : string) {struct t} : bool :=
  match t, s with
  | "", _ => true
  | String _ _, "" => false
  | String b t', String a s' => Ascii.eqb a b && startsWith s' t'
  end.

(** [s.includes(t)]. *)
Fixpoint includes (s t : string) : bool :=
  startsWith s t ||
  match s with
  | "" => false
  | String _ r => includes r t
  end.

(** ** The host interfaces *)

(** [new DOMParser().parseFromString(text, 'text/xml')]. *)
Class DOMParser := { parseFromString : string -> Document }.

(** [a.localeCompare(b)]: negative, zero or positive; a collation is a
    consistent comparator. *)
Class Collator := {
  localeCompare : string -> string -> Z;
  localeCompare_antisym :
    forall a b, Z.sgn (localeCompare b a) = (- Z.sgn (localeCompare a b))%Z;
  localeCompare_trans :
    forall a b c, (localeCompare a b <= 0)%Z -> (localeCompare b c <= 0)%Z ->
                  (localeCompare a c <= 0)%Z
}.

(** [s.toLowerCase()]: the case mapping of the Unicode standard, which the
    engine supplies.  On text of ASCII characters it folds the letters A
    to Z and changes nothing else. *)
Class CaseFolding := {
  toLowerCase : string -> string;
  toLowerCase_ascii : forall s, isAscii s = true -> toLowerCase s = asciiLower s
}.

(** [array.sort(cmp)]: the sort is stable, and for a consistent comparator
    its result does not depend on the algorithm.  [x] goes before the first
    element that does not compare below it. *)
Section Sort.
Context {A : Type} (cmp : A -> A -> Z).

Fixpoint insertSorted (x : A) (l : list A) : list A :=
  match l with
  | [] => [x]
  | y :: r => if (cmp x y <=? 0)%Z then x :: y :: r else y :: insertSorted x r
  end.

Definition sort (l : list A) : list A := fold_right insertSorted [] l.
End Sort.

(** ** JavaScript's [Map] with string keys, in insertion order *)

Module JsMap.
Definition t (V : Type) : Type := list (string * V).

Definition empty {V : Type} : t V := [].

Definition get {V : Type} (m : t V) (k : string) : option V := assoc k m.

Definition has {V : Type} (m : t V) (k : string) : bool :=
  match get m k with Some _ => true | None => false end.

(** [set] on a key that is present replaces the value where it stands; a
    new key goes to the end. *)
Fixpoint set {V : Type} (m : t V) (k : string) (v : V) : t V :=
  match m with
  | [] => [(k, v)]
  | (k', v') :: r =>
      if String.eqb k' k then (k, v) :: r else (k', v') :: set r k v
  end.

Definition keys {V : Type} (m : t V) : list string := map fst m.
Definition values {V : Type} (m : t V) : list V := map snd m.
End JsMap.

(** ** The data model *)

Record OntologyClass : Type := {
  id : string;
  label : string;
  description : string;
  children : list string;
  parents : list string
}.

Record OntologyData : Type := {
  classMap : JsMap.t OntologyClass;
  roots : list OntologyClass
}.

(** ** [parseOWL] *)

(** The three maps that the scan of the class elements fills. *)
Record Maps : Type := {
  m_classMap : JsMap.t OntologyClass;
  parentChildMap : gmap string (list string);
  childParentMap : gmap string (list string)
}.

Definition noMaps : Maps :=
  {| m_classMap := JsMap.empty; parentChildMap := ∅; childParentMap := ∅ |}.

Definition edgeHas (m : gmap string (list string)) (k : string) : bool :=
  match m !! k with Some _ => true | None => false end.

(** [if (!m.has(k)) m.set(k, []); m.get(k)!.push(v)].  The [!] is erased
    when the code is compiled: pushing to [undefined] would throw. *)
Definition pushEdge (m : gmap string (list string)) (k v : string)
  : option (gmap string (list string)) :=
  let m1 := if edgeHas m k then m else <[k := []]> m in
  l ← m1 !! k;
  Some (<[k := l ++ [v]]> m1).

Fixpoint foldM {S A : Type} (f : S -> A -> option S) (st : S) (l : list A)
  : option S :=
  match l with
  | [] => Some st
  | x :: r => st' ← f st x; foldM f st' r
  end.

(** The body of the loop over the [rdfs:subClassOf] elements of the class
    [child]. *)
Definition scanSubClassOf (child : string) (st : Maps) (sub : Node)
  : option Maps :=
  match getAttribute sub "rdf:resource" with
  | Some parent =>
      if isEmpty parent then Some st
      else
        pcm ← pushEdge (parentChildMap st) parent child;
        cpm ← pushEdge (childParentMap st) child parent;
        Some {| m_classMap := m_classMap st;
                parentChildMap := pcm;
                childParentMap := cpm |}
  | None => Some st
  end.

(** [cls.getAttribute('rdf:about') || cls.getAttribute('rdf:ID')]. *)
Definition classId (cls : Node) : option string :=
  jsOr (getAttribute cls "rdf:about") (getAttribute cls "rdf:ID").

(** [id.split('#').pop()?.split('/').pop()]. *)
Definition lastSegment (i : string) : option string :=
  s ← pop (split "#"%char i); pop (split "/"%char s).

(** [cls.getElementsByTagName(tag)[0]?.textContent]. *)
Definition firstText (cls : Node) (tag : string) : option string :=
  textContent <$> head (getElementsByTagName cls tag).

Definition classLabel (cls : Node) (i : string) : string :=
  orElse (jsOr (firstText cls "rdfs:label") (lastSegment i)) i.

Definition classDescription (cls : Node) : string :=
  orElse (firstText cls "rdfs:comment") "".

(** The body of the loop over the [owl:Class] elements. *)
Definition scanClass (st : Maps) (cls : Node) : option Maps :=
  match classId cls with
  | Some i =>
      if isEmpty i then Some st
      else
        let node := {| id := i;
                       label := classLabel cls i;
                       description := classDescription cls;
                       children := [];
                       parents := [] |} in
        let st1 := {| m_classMap := JsMap.set (m_classMap st) i node;
                      parentChildMap := parentChildMap st;
                      childParentMap := childParentMap st |} in
        foldM (scanSubClassOf i) st1 (getElementsByTagName cls "rdfs:subClassOf")
  | None => Some st
  end.

(** [classMap.forEach((node, id) => { node.children = ...; node.parents = ... })]. *)
Definition fillEdges (st : Maps) : JsMap.t OntologyClass :=
  map (fun '(k, node) =>
         (k, {| id := id node;
                label := label node;
                description := description node;
                children := default [] (parentChildMap st !! k);
                parents := default [] (childParentMap st !! k) |}))
      (m_classMap st).

Definition byLabel `{Collator} (a b : OntologyClass) : Z :=
  localeCompare (label a) (label b).

Definition hasNoParents (node : OntologyClass) : bool :=
  Nat.eqb (length (parents node)) 0.

(** Everything [parseOWL] does with the parsed document. *)
Definition indexDocument `{Collator} (xmlDoc : Document) : option OntologyData :=
  st ← foldM scanClass noMaps (docGetElementsByTagName xmlDoc "owl:Class");
  let cm := fillEdges st in
  let rs := List.filter hasNoParents (JsMap.values cm) in
  let sortedRoots :=
    if (0 <? length rs)%nat then sort byLabel rs
    else sort byLabel (take 10 (JsMap.values cm)) in
  Some {| classMap := cm; roots := sortedRoots |}.

Definition parseOWL `{DOMParser} `{Collator} (xmlText : string)
  : option OntologyData :=
  indexDocument (parseFromString xmlText).

(** ** The queries of the tree view

    [ontologyData] is component state: [None] until a file is loaded. *)

Definition getChildNodes `{Collator} (ontologyData : option OntologyData)
  (nodeId : string) : list OntologyClass :=
  match ontologyData with
  | None => []
  | Some data =>
      match JsMap.get (classMap data) nodeId with
      | None => []
      | Some node =>
          (* [.map(get).filter(child => child !== undefined)] is [omap] *)
          sort byLabel (omap (JsMap.get (classMap data)) (children node))
      end
  end.

(** [array.some(f)] for a callback that may fail to return: the elements
    are tried in order up to the first [true]. *)
Fixpoint someM {A : Type} (f : A -> option bool) (l : list A) : option bool :=
  match l with
  | [] => Some false
  | x :: r =>
      match f x with
      | Some true => Some true
      | Some false => someM f r
      | None => None
      end
  end.

(** [fuel] bounds the depth of the recursion; [None] says that the bound
    was reached before the call returned. *)
Fixpoint hasMatchingChild `{CaseFolding} (fuel : nat) (ontologyData : option OntologyData)
  (nodeId term : string) : option bool :=
  match fuel with
  | O => None
  | S fuel' =>
      match ontologyData ≫= (fun data => JsMap.get (classMap data) nodeId) with
      | None => Some false
      | Some node =>
          if includes (toLowerCase (label node)) (toLowerCase term)
          then Some true
          else someM (fun childId => hasMatchingChild fuel' ontologyData childId term)
                     (children node)
      end
  end.

(** [array.filter(f)] for a callback that may fail to return. *)
Fixpoint filterM {A : Type} (f : A -> option bool) (l : list A)
  : option (list A) :=
  match l with
  | [] => Some []
  | x :: r =>
      b ← f x;
      r' ← filterM f r;
      Some (if b : bool then x :: r' else r')
  end.

Definition filteredRootNodes `{CaseFolding} (fuel : nat) (ontologyData : option OntologyData)
  (rootNodes : list OntologyClass) (searchTerm : string)
  : option (list OntologyClass) :=
  if isEmpty searchTerm then Some rootNodes
  else
    filterM (fun node =>
               let matchesNode :=
                 includes (toLowerCase (label node)) (toLowerCase searchTerm) in
               if matchesNode then Some true
               else hasMatchingChild fuel ontologyData (id node) searchTerm)
            rootNodes.

(** ** What a document declares

    The class declarations and the subclass edges of a document, read off
    the DOM without the maps: the index is stated against them. *)

(** A value that passes [if (v)]. *)
Definition truthy (o : option string) : option string := jsOr o None.

Definition declaredId (cls : Node) : option string := truthy (classId cls).

Definition resourceOf (sub : Node) : option string :=
  truthy (getAttribute sub "rdf:resource").

Definition declaredParents (cls : Node) : list string :=
  omap resourceOf (getElementsByTagName cls "rdfs:subClassOf").

Definition declaration (cls : Node) : option (string * Node) :=
  i ← declaredId cls; Some (i, cls).

(** The class elements that carry an identifier, in document order. *)
Definition declarations (xmlDoc : Document) : list (string * Node) :=
  omap declaration (docGetElementsByTagName xmlDoc "owl:Class").

Definition edgesOf (d : string * Node) : list (string * string) :=
  map (pair d.1) (declaredParents d.2).

(** The subclass edges (child, parent), one per [rdfs:subClassOf] element
    that names a parent, in document order. *)
Definition declaredEdges (xmlDoc : Document) : list (string * string) :=
  flat_map edgesOf (declarations xmlDoc).

Definition childrenIn (E : list (string * string)) (p : string) : list string :=
  map fst (List.filter (fun e => String.eqb e.2 p) E).

Definition parentsIn (E : list (string * string)) (c : string) : list string :=
  map snd (List.filter (fun e => String.eqb e.1 c) E).

(** The declarations that carry the identifier [k], in document order. *)
Definition declarationsOf (k : string) (ds : list (string * Node)) : list Node :=
  map snd (List.filter (fun d => String.eqb d.1 k) ds).

Definition remember (seen : list string) (i : string) : list string :=
  if decide (i ∈ seen) then seen else seen ++ [i].

(** The identifiers of a list without repetition, each where it first
    occurs. *)
Definition firstOccurrences (l : list string) : list string :=
  foldl remember [] l.

(** The entry that [scanClass] stores for the declaration [cls] of [i]. *)
Definition bareNode (i : string) (cls : Node) : OntologyClass :=
  {| id := i;
     label := classLabel cls i;
     description := classDescription cls;
     children := [];
     parents := [] |}.

Definition edgesAt (m : gmap string (list string)) (k : string) : list string :=
  default [] (m !! k).

(** ** The graph of the children edges *)

Definition nodeOf (ontologyData : option OntologyData) (k : string)
  : option OntologyClass :=
  ontologyData ≫= (fun data => JsMap.get (classMap data) k).

Definition keysOf (ontologyData : option OntologyData) : list string :=
  match ontologyData with
  | Some data => JsMap.keys (classMap data)
  | None => []
  end.

(** [c] is listed as a child of the entry of [k]. *)
Definition childEdge (od : option OntologyData) (k c : string) : Prop :=
  exists node, nodeOf od k = Some node /\ c ∈ children node.

(** [k'] is [k] or is reached from [k] along children edges. *)
Inductive reaches (od : option OntologyData) : string -> string -> Prop :=
| reaches_here k : reaches od k k
| reaches_child k c k' : childEdge od k c -> reaches od c k' -> reaches od k k'.

(** [k'] is reached from [k] along [n] children edges. *)
Inductive reachesIn (od : option OntologyData) : nat -> string -> string -> Prop :=
| reachesIn_here k : reachesIn od 0 k k
| reachesIn_child n k c k' :
    childEdge od k c -> reachesIn od n c k' -> reachesIn od (S n) k k'.

Definition onCycle (od : option OntologyData) (k : string) : Prop :=
  exists c, childEdge od k c /\ reaches od c k.

(** No cycle of children edges can be reached from [k]. *)
Definition acyclicBelow (od : option OntologyData) (k : string) : Prop :=
  forall k', reaches od k k' -> ~ onCycle od k'.

(** [t] occurs in [s]. *)
Definition substring (t s : string) : Prop :=
  exists pre post, s = pre +:+ t +:+ post.

Definition caseInsensitiveSubstring `{CaseFolding} (term lbl : string) : Prop :=
  substring (toLowerCase term) (toLowerCase lbl).

(** The label of [k] or of a class reached from [k] contains [term]. *)
Definition matchBelow `{CaseFolding} (od : option OntologyData) (k term : string) : Prop :=
  exists k' node,
    reaches od k k' /\ nodeOf od k' = Some node /\
    caseInsensitiveSubstring term (label node).

(** A certificate that the index has no cycle: every child that has an
    entry ranks below its parent. *)
Definition ranked (rank : string -> nat) (data : OntologyData) : bool :=
  forallb (fun '(k, node) =>
             forallb (fun c => negb (JsMap.has (classMap data) c)
                               || (rank c <? rank k)%nat)
                     (children node))
          (classMap data).

(** ** Segments of an identifier *)

Definition isSeparator (c : ascii) : bool :=
  Ascii.eqb c "#" || Ascii.eqb c "/".

(** [split] with a set of separator characters. *)
Fixpoint splitBy (p : ascii -> bool) (s : string) : list string :=
  match s with
  | "" => [""]
  | String c r =>
      if p c then "" :: splitBy p r
      else match splitBy p r with
           | h :: t => String c h :: t
           | [] => [String c ""]
           end
  end.

(** The identifier split on ['#'] and ['/']. *)
Definition segments (i : string) : list string := splitBy isSeparator i.

(** The fallback label in the words of the specification: the final
    non-empty segment, and the identifier itself if there is none. *)
Definition finalNonEmptySegment (i : string) : string :=
  default i (last (filter (fun s => s <> "") (segments i))).

Fixpoint mentions (p : ascii -> bool) (s : string) : bool :=
  match s with
  | "" => false
  | String c r => p c || mentions p r
  end.

(** The text after the last separator. *)
Definition finalSegment (p : ascii -> bool) (s : string) : string :=
  default "" (last (splitBy p s)).

(** How often [x] occurs in [l]. *)
Definition occurrences {A : Type} `{EqDecision A} (x : A) (l : list A) : nat :=
  length (filter (fun y => y = x) l).

(** ** Specifications *)

(** [result] is [input] sorted by [cmp], elements that compare equal in the
    order they had. *)
Definition StableSortOf {A : Type} (cmp : A -> A -> Z) (input result : list A)
  : Prop :=
  result ≡ₚ input /\
  StronglySorted (fun a b => (cmp a b <= 0)%Z) result /\
  forall x, filter (fun y => cmp x y = 0%Z) result = filter (fun y => cmp x y = 0%Z) input.

(** What a scan leaves in the maps, relative to the maps it started from:
    [ds] are the declarations it indexed and [E] the edges it recorded. *)
Record scanned (st st' : Maps) (ds : list (string * Node))
  (E : list (string * string)) : Prop := {
  scanned_keys :
    JsMap.keys (m_classMap st') = foldl remember (JsMap.keys (m_classMap st)) ds.*1;
  scanned_get : forall k,
    JsMap.get (m_classMap st') k =
    match last (declarationsOf k ds) with
    | Some cls => Some (bareNode k cls)
    | None => JsMap.get (m_classMap st) k
    end;
  scanned_children : forall q,
    edgesAt (parentChildMap st') q = edgesAt (parentChildMap st) q ++ childrenIn E q;
  scanned_parents : forall q,
    edgesAt (childParentMap st') q = edgesAt (childParentMap st) q ++ parentsIn E q
}.

(** The entry of [k] in the index of a document with the edges [E], when
    [cls] is the last declaration of [k]. *)
Definition entryOf (E : list (string * string)) (k : string) (cls : Node)
  : OntologyClass :=
  {| id := k;
     label := classLabel cls k;
     description := classDescription cls;
     children := childrenIn E k;
     parents := parentsIn E k |}.

(** The index of a document, stated against its declarations. *)
Record indexed `{Collator} (xmlDoc : Document) (data : OntologyData) : Prop := {
  indexed_keys :
    JsMap.keys (classMap data) = firstOccurrences (declarations xmlDoc).*1;
  indexed_get : forall k,
    JsMap.get (classMap data) k =
    entryOf (declaredEdges xmlDoc) k <$> last (declarationsOf k (declarations xmlDoc));
  indexed_roots :
    roots data =
    let all := JsMap.values (classMap data) in
    let rs := List.filter hasNoParents all in
    sort byLabel (if (0 <? length rs)%nat then rs else take 10 all)
}.

(** ** Sample documents *)

Definition subClassOf (parent : string) : Node :=
  Element "rdfs:subClassOf" [("rdf:resource", parent)] [].

Definition rdfsLabel (text : string) : Node :=
  Element "rdfs:label" [] [TextNode text].

Definition owlClass (about : string) (kids : list Node) : Node :=
  Element "owl:Class" [("rdf:about", about)] kids.

Definition rdfRDF (kids : list Node) : Document := [Element "rdf:RDF" [] kids].

(** A (no parent), B and C below A; the labels are not in identifier order. *)
Definition treeDoc : Document :=
  rdfRDF [owlClass "A" [rdfsLabel "Bravo"];
          owlClass "B" [rdfsLabel "Charlie"; subClassOf "A"];
          owlClass "C" [rdfsLabel "Alpha"; subClassOf "A"]].

(** A and B are each declared a subclass of the other; C is below A. *)
Definition cycleDoc : Document :=
  rdfRDF [owlClass "A" [rdfsLabel "Alpha"; subClassOf "B"];
          owlClass "B" [rdfsLabel "Bravo"; subClassOf "A"];
          owlClass "C" [rdfsLabel "Charlie"; subClassOf "A"]].

(** The edge from A to B is declared twice. *)
Definition repeatedEdgeDoc : Document :=
  rdfRDF [owlClass "B" [rdfsLabel "Bravo"];
          owlClass "A" [rdfsLabel "Alpha"; subClassOf "B"; subClassOf "B"]].

(** A is declared twice, with different labels and parents; the second
    class element has no identifier. *)
Definition redeclaredDoc : Document :=
  rdfRDF [owlClass "A" [rdfsLabel "First"; subClassOf "P"];
          Element "owl:Class" [] [rdfsLabel "Anonymous"];
          owlClass "P" [];
          owlClass "A" [rdfsLabel "Second"; subClassOf "Q"]].

(** A class without a label whose identifier ends in a separator. *)
Definition trailingSlashDoc : Document :=
  rdfRDF [owlClass "http://ex.org/foo/" []].

(** What a parser answers for text that is not XML. *)
Definition parserErrorDoc : Document :=
  [Element "parsererror" [("xmlns", "http://www.mozilla.org/newlayout/xml/parsererror.xml")]
     [TextNode "XML Parsing Error: syntax error"; Element "sourcetext" [] [TextNode "hello"]]].

(** A parser for which no text is well-formed. *)
Definition failingParser : DOMParser :=
  {| parseFromString := fun _ => parserErrorDoc |}.

(** ** A collation to compute with: the order of the character codes *)

Definition codeCompare (a b : string) : Z :=
  match String_as_OT.cmp a b with
  | Eq => 0
  | Lt => -1
  | Gt => 1
  end.

Definition codeCollator : Collator.
Proof.
  refine {| localeCompare := codeCompare |}.
  - intros a b. unfold codeCompare. rewrite (String_as_OT.cmp_antisym b a).
    by destruct (String_as_OT.cmp a b).
  - assert (Hle : forall a b, (codeCompare a b <= 0)%Z -> a = b \/ String_as_OT.lt a b).
    { intros a b. unfold codeCompare.
      destruct (String_as_OT.cmp a b) eqn:E; intros Hle; [| |lia].
      - left. by apply String_as_OT.cmp_eq.
      - right. by apply String_as_OT.cmp_lt. }
    intros a b c [->|Hab]%Hle Hbc; [done|].
    pose proof Hbc as [->|Hbc']%Hle.
    + unfold codeCompare. apply String_as_OT.cmp_lt in Hab. by rewrite Hab.
    + unfold codeCompare.
      pose proof (String_as_OT.lt_trans _ _ _ Hab Hbc') as Hac.
      apply String_as_OT.cmp_lt in Hac. by rewrite Hac.
Defined.

(** ** The state of the component and its handlers

    The [useState] cells of [OWLViewer]; a handler maps the state of the
    render it was created in to the state after its setters have run. *)

Record State : Type := {
  ontologyData : option OntologyData;
  searchTerm : string;
  selectedNode : option OntologyClass;
  expandedNodes : gset string;
  rootNodes : list OntologyClass
}.

Definition initialState : State :=
  {| ontologyData := None; searchTerm := ""; selectedNode := None;
     expandedNodes := ∅; rootNodes := [] |}.

Definition setOntologyData (v : option OntologyData) (st : State) : State :=
  {| ontologyData := v; searchTerm := searchTerm st;
     selectedNode := selectedNode st; expandedNodes := expandedNodes st;
     rootNodes := rootNodes st |}.

Definition setSearchTerm (v : string) (st : State) : State :=
  {| ontologyData := ontologyData st; searchTerm := v;
     selectedNode := selectedNode st; expandedNodes := expandedNodes st;
     rootNodes := rootNodes st |}.

Definition setSelectedNode (v : option OntologyClass) (st : State) : State :=
  {| ontologyData := ontologyData st; searchTerm := searchTerm st;
     selectedNode := v; expandedNodes := expandedNodes st;
     rootNodes := rootNodes st |}.

Definition setExpandedNodes (v : gset string) (st : State) : State :=
  {| ontologyData := ontologyData st; searchTerm := searchTerm st;
     selectedNode := selectedNode st; expandedNodes := v;
     rootNodes := rootNodes st |}.

Definition setRootNodes (v : list OntologyClass) (st : State) : State :=
  {| ontologyData := ontologyData st; searchTerm := searchTerm st;
     selectedNode := selectedNode st; expandedNodes := expandedNodes st;
     rootNodes := v |}.

(** [handleFileUpload]: [uploaded] is the text that the reader hands to
    [onload] for [e.target.files?.[0]], [None] when no file was chosen. *)
Definition handleFileUpload `{DOMParser} `{Collator} (uploaded : option string)
  (st : State) : option State :=
  match uploaded with
  | Some result =>
      parsed ← parseOWL result;
      Some (setSelectedNode None
             (setExpandedNodes ∅
               (setRootNodes (roots parsed)
                 (setOntologyData (Some parsed) st))))
  | None => Some st
  end.

Definition toggleNode (nodeId : string) (st : State) : State :=
  let newExpanded :=
    if bool_decide (nodeId ∈ expandedNodes st)
    then expandedNodes st ∖ {[nodeId]}
    else expandedNodes st ∪ {[nodeId]} in
  setExpandedNodes newExpanded st.

Definition hasChildren (node : OntologyClass) : bool :=
  (0 <? length (children node))%nat.

Definition expandAll (st : State) : State :=
  match ontologyData st with
  | None => st
  | Some data =>
      let allNodeIds :=
        foldl (fun (acc : gset string) '(k, node) =>
                 if hasChildren node then acc ∪ {[k]} else acc)
              ∅ (classMap data) in
      setExpandedNodes allNodeIds st
  end.

Definition collapseAll (st : State) : State := setExpandedNodes ∅ st.

(** ** [renderTreeNode] *)

(** What a row of the tree shows. *)
Record Row : Type := {
  row_key : string;
  row_label : string;
  row_paddingLeft : nat;
  row_isSelected : bool;
  row_isExpanded : bool;
  row_hasChildren : bool;
  row_matchesSearch : bool;
  row_count : nat
}.

(** The element of a node: its row and, when the node is expanded and has
    children, the container of the elements of its children. *)
Inductive TreeElement : Type :=
| treeElement (row : Row) (container : option (list TreeElement)).

(** [fuel] bounds the depth of the recursion, as for [hasMatchingChild]. *)
Fixpoint renderTreeNode `{Collator} `{CaseFolding} (fuel : nat) (st : State)
  (node : OntologyClass) (depth : nat) : option TreeElement :=
  match fuel with
  | O => None
  | S fuel' =>
      let isExpanded := bool_decide (id node ∈ expandedNodes st) in
      let isSelected :=
        match selectedNode st with
        | Some sel => String.eqb (id sel) (id node)
        | None => false
        end in
      let matchesSearch :=
        negb (isEmpty (searchTerm st))
        && includes (toLowerCase (label node)) (toLowerCase (searchTerm st)) in
      let row :=
        {| row_key := id node;
           row_label := label node;
           row_paddingLeft := depth * 24 + 12;
           row_isSelected := isSelected;
           row_isExpanded := isExpanded;
           row_hasChildren := hasChildren node;
           row_matchesSearch := matchesSearch;
           row_count := length (children node) |} in
      if isExpanded && hasChildren node then
        kids ← mapM (fun child => renderTreeNode fuel' st child (depth + 1))
                    (getChildNodes (ontologyData st) (id node));
        Some (treeElement row (Some kids))
      else Some (treeElement row None)
  end.

(** The click handler of a row. *)
Definition clickRow (node : OntologyClass) (st : State) : State :=
  let st1 := setSelectedNode (Some node) st in
  if hasChildren node then toggleNode (id node) st1 else st1.

(** What the tree pane shows. *)
Inductive TreePane : Type :=
| noOntologyLoaded
| noResultsFound (term : string)
| treeRows (elements : list TreeElement).

Definition treePane `{Collator} `{CaseFolding} (fuel : nat) (st : State) : option TreePane :=
  match ontologyData st with
  | None => Some noOntologyLoaded
  | Some _ =>
      shown ← filteredRootNodes fuel (ontologyData st) (rootNodes st) (searchTerm st);
      if (0 <? length shown)%nat then
        treeRows <$> mapM (fun node => renderTreeNode fuel st node 0) shown
      else Some (noResultsFound (searchTerm st))
  end.

(** ** The details panel *)

(** The buttons under "Parent Classes". *)
Definition parentButtons `{Collator} (data : OntologyData)
  (sel : OntologyClass) : list OntologyClass :=
  if (0 <? length (parents sel))%nat
  then sort byLabel (omap (JsMap.get (classMap data)) (parents sel))
  else [].

(** The buttons under "Child Classes": the first ten. *)
Definition childButtons `{Collator} (data : OntologyData)
  (sel : OntologyClass) : list OntologyClass :=
  if (0 <? length (children sel))%nat
  then take 10 (sort byLabel (omap (JsMap.get (classMap data)) (children sel)))
  else [].

(** The number in "+N more children", when the note is shown. *)
Definition moreChildren (sel : OntologyClass) : option nat :=
  if (10 <? length (children sel))%nat
  then Some (length (children sel) - 10)
  else None.

Definition clickParent (parent : OntologyClass) (st : State) : State :=
  setExpandedNodes (expandedNodes st ∪ {[id parent]})
    (setSelectedNode (Some parent) st).

(** The handler adds the identifier of the node that was selected when the
    button was rendered. *)
Definition clickChild (sel child : OntologyClass) (st : State) : State :=
  setExpandedNodes (expandedNodes st ∪ {[id sel]})
    (setSelectedNode (Some child) st).

(** The numbers of the "Stats" box. *)
Definition totalClasses (data : OntologyData) : nat :=
  length (classMap data).

(** ** What the user can do *)

(** The nodes that have a row in the tree: the roots (the search may hide
    some of them) and the children of a node that is expanded. *)
Inductive hasRow `{Collator} (st : State) : OntologyClass -> Prop :=
| hasRow_root node : node ∈ rootNodes st -> hasRow st node
| hasRow_child node child :
    hasRow st node ->
    id node ∈ expandedNodes st ->
    hasChildren node = true ->
    child ∈ getChildNodes (ontologyData st) (id node) ->
    hasRow st child.

Inductive step `{DOMParser} `{Collator} : State -> State -> Prop :=
| step_upload uploaded st st' :
    handleFileUpload uploaded st = Some st' -> step st st'
| step_search term st : step st (setSearchTerm term st)
| step_expandAll st : step st (expandAll st)
| step_collapseAll st : step st (collapseAll st)
| step_row node st : hasRow st node -> step st (clickRow node st)
| step_parent data sel parent st :
    ontologyData st = Some data -> selectedNode st = Some sel ->
    parent ∈ parentButtons data sel -> step st (clickParent parent st)
| step_child data sel child st :
    ontologyData st = Some data -> selectedNode st = Some sel ->
    child ∈ childButtons data sel -> step st (clickChild sel child st).

(** Every entry is stored under its own identifier, and no identifier has
    two entries. *)
Definition wellKeyed (data : OntologyData) : Prop :=
  NoDup (JsMap.keys (classMap data)) /\
  forall k node, (k, node) ∈ classMap data -> id node = k.

(** The selection, the expanded identifiers and the roots all belong to the
    loaded index. *)
Definition consistent (st : State) : Prop :=
  match ontologyData st with
  | None =>
      selectedNode st = None /\ expandedNodes st = ∅ /\ rootNodes st = []
  | Some data =>
      wellKeyed data /\
      rootNodes st = roots data /\
      (forall r, r ∈ roots data -> r ∈ JsMap.values (classMap data)) /\
      (forall sel, selectedNode st = Some sel -> sel ∈ JsMap.values (classMap data)) /\
      (forall k, k ∈ expandedNodes st -> k ∈ JsMap.keys (classMap data))
  end.

(** A parser that answers every text with the document [d]. *)
Definition parserAnswering (d : Document) : DOMParser :=
  {| parseFromString := fun _ => d |}.

(** The index of [treeDoc]. *)
Definition treeIndex : OntologyData :=
  {| classMap :=
       [("A", {| id := "A"; label := "Bravo"; description := "";
                 children := ["B"; "C"]; parents := [] |});
        ("B", {| id := "B"; label := "Charlie"; description := "";
                 children := []; parents := ["A"] |});
        ("C", {| id := "C"; label := "Alpha"; description := "";
                 children := []; parents := ["A"] |})];
     roots :=
       [{| id := "A"; label := "Bravo"; description := "";
           children := ["B"; "C"]; parents := [] |}] |}.

(** The element of a node that is neither expanded nor selected, at the
    top of the tree, while nothing is searched for. *)
Definition collapsedRoot (node : OntologyClass) : TreeElement :=
  treeElement
    {| row_key := id node;
       row_label := label node;
       row_paddingLeft := 12;
       row_isSelected := false;
       row_isExpanded := false;
       row_hasChildren := hasChildren node;
       row_matchesSearch := false;
       row_count := length (children node) |}
    None.

(** A case mapping to compute with: it folds the ASCII letters only. *)
Definition asciiFolding : CaseFolding :=
  {| toLowerCase := asciiLower;
     toLowerCase_ascii := fun _ _ => eq_refl |}.

(** The index of [cycleDoc]. *)
Definition cycleIndex : OntologyData :=
  {| classMap :=
       [("A", {| id := "A"; label := "Alpha"; description := "";
                 children := ["B"; "C"]; parents := ["B"] |});
        ("B", {| id := "B"; label := "Bravo"; description := "";
                 children := ["A"]; parents := ["A"] |});
        ("C", {| id := "C"; label := "Charlie"; description := "";
                 children := []; parents := ["A"] |})];
     roots :=
       [{| id := "A"; label := "Alpha"; description := "";
           children := ["B"; "C"]; parents := ["B"] |};
        {| id := "B"; label := "Bravo"; description := "";
           children := ["A"]; parents := ["A"] |};
        {| id := "C"; label := "Charlie"; description := "";
           children := []; parents := ["A"] |}] |}.

(** ** Lemmas on [JsMap] *)

Lemma eqb_decide (a b : string) : String.eqb a b = bool_decide (a = b).
Proof.
  destruct (String.eqb_spec a b);
    [by rewrite bool_decide_eq_true_2|by rewrite bool_decide_eq_false_2].
Qed.

Lemma JsMap_get_set {V} (m : JsMap.t V) k v k' :
  JsMap.get (JsMap.set m k v) k' = if decide (k = k') then Some v else JsMap.get m k'.
Proof.
  unfold JsMap.get. induction m as [|[a x] m IH]; simpl.
  - rewrite eqb_decide. by case_bool_decide; case_decide.
  - rewrite !eqb_decide. case_bool_decide as Hak; simpl.
    + subst a. rewrite eqb_decide. case_bool_decide; case_decide; congruence.
    + rewrite IH, eqb_decide. case_bool_decide; case_decide; congruence.
Qed.

Lemma JsMap_get_Some_keys {V} (m : JsMap.t V) k :
  is_Some (JsMap.get m k) <-> k ∈ JsMap.keys m.
Proof.
  unfold JsMap.get, JsMap.keys. induction m as [|[a x] m IH]; simpl.
  - split; [by intros [? ?]|by intros ?%elem_of_nil].
  - rewrite eqb_decide, elem_of_cons. case_bool_decide; subst.
    + split; eauto.
    + rewrite IH. split; [by right|]. by intros [?|?].
Qed.

Lemma JsMap_keys_set {V} (m : JsMap.t V) k v :
  JsMap.keys (JsMap.set m k v) = remember (JsMap.keys m) k.
Proof.
  unfold JsMap.keys, remember. induction m as [|[a x] m IH]; simpl.
  - destruct (decide (k ∈ [])) as [H|_]; [by apply elem_of_nil in H|done].
  - rewrite eqb_decide. case_bool_decide; subst; simpl.
    + rewrite decide_True; [done|left].
    + rewrite IH. case_decide as H1; case_decide as H2; try done.
      * exfalso. apply H2. by right.
      * apply elem_of_cons in H2 as [->|]; done.
Qed.

Lemma JsMap_get_elem_of {V} (m : JsMap.t V) k v :
  JsMap.get m k = Some v -> (k, v) ∈ m.
Proof.
  unfold JsMap.get. induction m as [|[a x] m IH]; simpl; [done|].
  rewrite eqb_decide. case_bool_decide; subst.
  - intros [= ->]. left.
  - intros. right. auto.
Qed.

Lemma JsMap_elem_of_get {V} (m : JsMap.t V) k v :
  NoDup (JsMap.keys m) -> (k, v) ∈ m -> JsMap.get m k = Some v.
Proof.
  unfold JsMap.get, JsMap.keys. induction m as [|[a x] m IH]; simpl.
  - by intros _ ?%elem_of_nil.
  - intros [Hnin Hnd]%NoDup_cons [[= -> ->]|Hin]%elem_of_cons.
    + by rewrite String.eqb_refl.
    + rewrite eqb_decide. case_bool_decide; subst; [|auto].
      exfalso. apply Hnin. apply list_elem_of_fmap. by exists (k, v).
Qed.

Lemma remember_NoDup seen i : NoDup seen -> NoDup (remember seen i).
Proof.
  unfold remember. case_decide; [done|]. intros.
  apply NoDup_app. split_and!; [done| |apply NoDup_singleton].
  intros x ? ->%list_elem_of_singleton. done.
Qed.

Lemma remember_elem_of seen i x : x ∈ remember seen i <-> x ∈ seen \/ x = i.
Proof.
  unfold remember. case_decide.
  - split; [by left|]. by intros [?| ->].
  - rewrite elem_of_app, list_elem_of_singleton. done.
Qed.

Lemma foldl_remember_NoDup l seen :
  NoDup seen -> NoDup (foldl remember seen l).
Proof.
  revert seen. induction l; simpl; auto using remember_NoDup.
Qed.

Lemma foldl_remember_elem_of l seen x :
  x ∈ foldl remember seen l <-> x ∈ seen \/ x ∈ l.
Proof.
  revert seen. induction l as [|a l IH]; intros seen; simpl.
  - rewrite elem_of_nil. tauto.
  - rewrite IH, remember_elem_of, elem_of_cons. tauto.
Qed.

Lemma firstOccurrences_NoDup l : NoDup (firstOccurrences l).
Proof. apply foldl_remember_NoDup, NoDup_nil_2. Qed.

Lemma firstOccurrences_elem_of l x : x ∈ firstOccurrences l <-> x ∈ l.
Proof.
  unfold firstOccurrences. rewrite foldl_remember_elem_of, elem_of_nil. tauto.
Qed.

(** ** The scan of the document *)

(** The [!] of [pushEdge] never meets [undefined]: the guard has just put
    the key in. *)
Lemma pushEdge_Some m k v :
  pushEdge m k v = Some (<[k := edgesAt m k ++ [v]]> m).
Proof.
  unfold pushEdge, edgeHas, edgesAt. destruct (m !! k) as [l|] eqn:E; simpl.
  - by rewrite E.
  - rewrite lookup_insert_eq. simpl. by rewrite insert_insert_eq.
Qed.

Lemma edgesAt_insert m k l q :
  edgesAt (<[k := l]> m) q = if decide (q = k) then l else edgesAt m q.
Proof.
  unfold edgesAt. case_decide; subst.
  - by rewrite lookup_insert_eq.
  - by rewrite lookup_insert_ne.
Qed.

Lemma childrenIn_app E1 E2 p :
  childrenIn (E1 ++ E2) p = childrenIn E1 p ++ childrenIn E2 p.
Proof. unfold childrenIn. by rewrite List.filter_app, map_app. Qed.

Lemma parentsIn_app E1 E2 c :
  parentsIn (E1 ++ E2) c = parentsIn E1 c ++ parentsIn E2 c.
Proof. unfold parentsIn. by rewrite List.filter_app, map_app. Qed.

Lemma childrenIn_cons c p E q :
  childrenIn ((c, p) :: E) q = (if decide (q = p) then [c] else []) ++ childrenIn E q.
Proof.
  unfold childrenIn. simpl. rewrite eqb_decide.
  case_bool_decide; case_decide; subst; done.
Qed.

Lemma parentsIn_cons c p E q :
  parentsIn ((c, p) :: E) q = (if decide (q = c) then [p] else []) ++ parentsIn E q.
Proof.
  unfold parentsIn. simpl. rewrite eqb_decide.
  case_bool_decide; case_decide; subst; done.
Qed.

Lemma scanned_refl st : scanned st st [] [].
Proof. split; intros; simpl; by rewrite ?app_nil_r. Qed.

Lemma declarationsOf_app k ds1 ds2 :
  declarationsOf k (ds1 ++ ds2) = declarationsOf k ds1 ++ declarationsOf k ds2.
Proof. unfold declarationsOf. by rewrite List.filter_app, map_app. Qed.

Lemma scanned_trans st1 st2 st3 ds1 ds2 E1 E2 :
  scanned st1 st2 ds1 E1 -> scanned st2 st3 ds2 E2 ->
  scanned st1 st3 (ds1 ++ ds2) (E1 ++ E2).
Proof.
  intros [K1 G1 C1 P1] [K2 G2 C2 P2]. split.
  - by rewrite K2, K1, fmap_app, foldl_app.
  - intros k. rewrite G2, G1, declarationsOf_app, last_app.
    by destruct (last (declarationsOf k ds2)).
  - intros q. by rewrite C2, C1, childrenIn_app, app_assoc.
  - intros q. by rewrite P2, P1, parentsIn_app, app_assoc.
Qed.

Lemma scanSubClassOf_scanned child st sub :
  exists st', scanSubClassOf child st sub = Some st' /\
    scanned st st' [] (map (pair child) (option_list (resourceOf sub))).
Proof.
  unfold scanSubClassOf, resourceOf, truthy, jsOr.
  destruct (getAttribute sub "rdf:resource") as [parent|]; simpl;
    [destruct (isEmpty parent); simpl|]; try (eexists; split; [done|apply scanned_refl]).
  rewrite !pushEdge_Some. simpl. eexists; split; [done|].
  split; simpl; intros; try done.
  - rewrite edgesAt_insert, childrenIn_cons. case_decide; subst; by rewrite ?app_nil_r.
  - rewrite edgesAt_insert, parentsIn_cons. case_decide; subst; by rewrite ?app_nil_r.
Qed.

Lemma foldM_scanSubClassOf_scanned child subs : forall st,
  exists st', foldM (scanSubClassOf child) st subs = Some st' /\
    scanned st st' [] (map (pair child) (omap resourceOf subs)).
Proof.
  induction subs as [|sub subs IH]; intros st; simpl.
  - eexists; split; [done|apply scanned_refl].
  - destruct (scanSubClassOf_scanned child st sub) as (st1 & -> & H1). simpl.
    destruct (IH st1) as (st2 & -> & H2). eexists; split; [done|].
    pose proof (scanned_trans _ _ _ _ _ _ _ H1 H2) as H. simpl in H.
    destruct (resourceOf sub); simpl in *; done.
Qed.

Lemma scanClass_scanned st cls :
  exists st', scanClass st cls = Some st' /\
    scanned st st' (option_list (declaration cls))
            (flat_map edgesOf (option_list (declaration cls))).
Proof.
  unfold scanClass, declaration, declaredId, truthy, jsOr.
  destruct (classId cls) as [i|]; simpl;
    [destruct (isEmpty i) eqn:Ei; simpl|]; try (eexists; split; [done|apply scanned_refl]).
  match goal with |- context [foldM _ ?s _] => set (st1 := s) end.
  destruct (foldM_scanSubClassOf_scanned i (getElementsByTagName cls "rdfs:subClassOf") st1)
    as (st2 & -> & H2).
  eexists; split; [done|].
  assert (H1 : scanned st st1 [(i, cls)] []).
  { split; simpl; intros; try by rewrite app_nil_r.
    - apply JsMap_keys_set.
    - rewrite JsMap_get_set. unfold declarationsOf. simpl. rewrite eqb_decide.
      case_decide; subst.
      + by rewrite bool_decide_eq_true_2.
      + by rewrite bool_decide_eq_false_2. }
  pose proof (scanned_trans _ _ _ _ _ _ _ H1 H2) as H.
  unfold edgesOf at 1. simpl in *. by rewrite app_nil_r.
Qed.

Lemma foldM_scanClass_scanned cs : forall st,
  exists st', foldM scanClass st cs = Some st' /\
    scanned st st' (omap declaration cs) (flat_map edgesOf (omap declaration cs)).
Proof.
  induction cs as [|c cs IH]; intros st; simpl.
  - eexists; split; [done|apply scanned_refl].
  - destruct (scanClass_scanned st c) as (st1 & -> & H1). simpl.
    destruct (IH st1) as (st2 & -> & H2). eexists; split; [done|].
    pose proof (scanned_trans _ _ _ _ _ _ _ H1 H2) as H.
    rewrite <- flat_map_app in H.
    by destruct (declaration c).
Qed.

Lemma fillEdges_keys st : JsMap.keys (fillEdges st) = JsMap.keys (m_classMap st).
Proof.
  unfold fillEdges, JsMap.keys. induction (m_classMap st) as [|[k v] m IH]; simpl; [done|].
  by rewrite IH.
Qed.

Lemma fillEdges_get st k :
  JsMap.get (fillEdges st) k =
  (fun node => {| id := id node; label := label node;
                  description := description node;
                  children := edgesAt (parentChildMap st) k;
                  parents := edgesAt (childParentMap st) k |})
    <$> JsMap.get (m_classMap st) k.
Proof.
  unfold fillEdges, JsMap.get. induction (m_classMap st) as [|[a v] m IH]; simpl; [done|].
  rewrite eqb_decide. case_bool_decide; subst; [done|]. apply IH.
Qed.

(** ** The index of a document *)

Lemma indexDocument_indexed `{Collator} (xmlDoc : Document) :
  exists data, indexDocument xmlDoc = Some data /\ indexed xmlDoc data.
Proof.
  unfold indexDocument.
  destruct (foldM_scanClass_scanned (docGetElementsByTagName xmlDoc "owl:Class") noMaps)
    as (st & -> & [K G C P]).
  simpl. eexists; split; [done|]. split; simpl.
  - by rewrite fillEdges_keys, K.
  - intros k. rewrite fillEdges_get, G. fold (declarations xmlDoc).
    destruct (last (declarationsOf k (declarations xmlDoc))); simpl; [|done].
    unfold entryOf. by rewrite C, P.
  - by destruct (0 <? _)%nat.
Qed.

(** ** The sort *)

Section SortFacts.
Context {A : Type} (cmp : A -> A -> Z).
Hypothesis cmp_antisym : forall a b, Z.sgn (cmp b a) = (- Z.sgn (cmp a b))%Z.
Hypothesis cmp_trans :
  forall a b c, (cmp a b <= 0)%Z -> (cmp b c <= 0)%Z -> (cmp a c <= 0)%Z.

Lemma insertSorted_Permutation x l : insertSorted cmp x l ≡ₚ x :: l.
Proof.
  induction l as [|y r IH]; simpl; [done|].
  destruct (cmp x y <=? 0)%Z; [done|]. by rewrite IH, Permutation_swap.
Qed.

Lemma sort_Permutation l : sort cmp l ≡ₚ l.
Proof.
  induction l as [|x l IH]; simpl; [done|].
  by rewrite insertSorted_Permutation, IH.
Qed.

Lemma insertSorted_StronglySorted x l :
  StronglySorted (fun a b => (cmp a b <= 0)%Z) l ->
  StronglySorted (fun a b => (cmp a b <= 0)%Z) (insertSorted cmp x l).
Proof.
  induction l as [|y r IH]; simpl; intros Hs.
  - repeat constructor.
  - apply StronglySorted_inv in Hs as [Hr Hy].
    destruct (Z.leb_spec (cmp x y) 0) as [Hle|Hgt].
    + constructor; [by constructor|]. constructor; [done|].
      eapply Forall_impl; [exact Hy|]. intros z Hz. by eapply cmp_trans.
    + constructor; [by apply IH|].
      rewrite insertSorted_Permutation. constructor; [|done].
      pose proof (cmp_antisym x y). lia.
Qed.

Lemma sort_StronglySorted l :
  StronglySorted (fun a b => (cmp a b <= 0)%Z) (sort cmp l).
Proof.
  induction l; simpl; [constructor|by apply insertSorted_StronglySorted].
Qed.

Lemma insertSorted_ties k x l :
  filter (fun y => cmp k y = 0%Z) (insertSorted cmp x l)
  = filter (fun y => cmp k y = 0%Z) (x :: l).
Proof.
  induction l as [|y r IH]; simpl; [done|].
  destruct (Z.leb_spec (cmp x y) 0) as [Hle|Hgt]; [done|].
  rewrite filter_cons, IH, !filter_cons.
  destruct (decide (cmp k y = 0%Z)) as [Hy|]; [|done].
  destruct (decide (cmp k x = 0%Z)) as [Hx|]; [|done].
  exfalso. pose proof (cmp_antisym k x).
  assert (cmp x y <= 0)%Z; [|lia]. apply (cmp_trans x k y); lia.
Qed.

Lemma sort_ties k l :
  filter (fun y => cmp k y = 0%Z) (sort cmp l) = filter (fun y => cmp k y = 0%Z) l.
Proof.
  induction l as [|x l IH]; simpl; [done|].
  by rewrite insertSorted_ties, !filter_cons, IH.
Qed.

Lemma sort_StableSortOf l : StableSortOf cmp l (sort cmp l).
Proof.
  split_and!; [apply sort_Permutation|apply sort_StronglySorted|].
  intros x. apply sort_ties.
Qed.
End SortFacts.

Lemma byLabel_StableSortOf `{Collator} l : StableSortOf byLabel l (sort byLabel l).
Proof.
  apply sort_StableSortOf; unfold byLabel; intros.
  - apply localeCompare_antisym.
  - by eapply localeCompare_trans.
Qed.

(** ** Edges and occurrences *)

Lemma elem_of_parentsIn E c p : p ∈ parentsIn E c <-> (c, p) ∈ E.
Proof.
  induction E as [|[c' p'] E IH].
  - unfold parentsIn. simpl. by rewrite !elem_of_nil.
  - rewrite parentsIn_cons, elem_of_app, IH, elem_of_cons.
    case_decide; subst.
    + rewrite list_elem_of_singleton. split; intros [?|?]; simplify_eq; auto.
    + rewrite elem_of_nil. split; intros [?|?]; simplify_eq; auto.
Qed.

Lemma elem_of_childrenIn E c p : c ∈ childrenIn E p <-> (c, p) ∈ E.
Proof.
  induction E as [|[c' p'] E IH].
  - unfold childrenIn. simpl. by rewrite !elem_of_nil.
  - rewrite childrenIn_cons, elem_of_app, IH, elem_of_cons.
    case_decide; subst.
    + rewrite list_elem_of_singleton. split; intros [?|?]; simplify_eq; auto.
    + rewrite elem_of_nil. split; intros [?|?]; simplify_eq; auto.
Qed.

Lemma occurrences_nil {A} `{EqDecision A} (x : A) : occurrences x [] = 0.
Proof. done. Qed.

Lemma occurrences_cons {A} `{EqDecision A} (x y : A) l :
  occurrences x (y :: l) = (if decide (y = x) then 1 else 0) + occurrences x l.
Proof. unfold occurrences. rewrite filter_cons. by case_decide. Qed.

Lemma occurrences_app {A} `{EqDecision A} (x : A) l1 l2 :
  occurrences x (l1 ++ l2) = occurrences x l1 + occurrences x l2.
Proof. unfold occurrences. by rewrite filter_app, length_app. Qed.

Lemma occurrences_parentsIn E c p :
  occurrences p (parentsIn E c) = occurrences (c, p) E.
Proof.
  induction E as [|[c' p'] E IH]; [done|].
  rewrite parentsIn_cons, occurrences_app, IH, occurrences_cons.
  f_equal. case_decide; subst.
  - rewrite occurrences_cons, occurrences_nil. repeat case_decide; simplify_eq; done.
  - rewrite occurrences_nil. case_decide; simplify_eq; done.
Qed.

Lemma occurrences_childrenIn E c p :
  occurrences c (childrenIn E p) = occurrences (c, p) E.
Proof.
  induction E as [|[c' p'] E IH]; [done|].
  rewrite childrenIn_cons, occurrences_app, IH, occurrences_cons.
  f_equal. case_decide; subst.
  - rewrite occurrences_cons, occurrences_nil. repeat case_decide; simplify_eq; done.
  - rewrite occurrences_nil. case_decide; simplify_eq; done.
Qed.

Lemma parentsIn_NoDup E c : NoDup E -> NoDup (parentsIn E c).
Proof.
  induction E as [|[c' p'] E IH]; [intros; apply NoDup_nil_2|].
  intros [Hnin Hnd]%NoDup_cons. rewrite parentsIn_cons.
  case_decide; subst; simpl; [|auto].
  apply NoDup_cons. split; [|auto]. by rewrite elem_of_parentsIn.
Qed.

Lemma childrenIn_NoDup E p : NoDup E -> NoDup (childrenIn E p).
Proof.
  induction E as [|[c' p'] E IH]; [intros; apply NoDup_nil_2|].
  intros [Hnin Hnd]%NoDup_cons. rewrite childrenIn_cons.
  case_decide; subst; simpl; [|auto].
  apply NoDup_cons. split; [|auto]. by rewrite elem_of_childrenIn.
Qed.

Lemma parentsIn_map_pair i ps k :
  parentsIn (map (pair i) ps) k = if decide (i = k) then ps else [].
Proof.
  induction ps as [|p ps IH]; [by case_decide|].
  simpl. rewrite parentsIn_cons, IH. repeat case_decide; simplify_eq; done.
Qed.

Lemma parentsIn_edges ds k :
  parentsIn (flat_map edgesOf ds) k = flat_map declaredParents (declarationsOf k ds).
Proof.
  induction ds as [|[i cls] ds IH]; [done|].
  simpl. rewrite parentsIn_app, IH. unfold edgesOf at 1. simpl.
  rewrite parentsIn_map_pair. unfold declarationsOf. simpl. rewrite eqb_decide.
  case_decide; subst.
  - by rewrite bool_decide_eq_true_2.
  - by rewrite bool_decide_eq_false_2.
Qed.

(** The entries of the index are the values stored under their own
    identifier. *)
Lemma indexed_values `{Collator} xmlDoc data c :
  indexed xmlDoc data -> c ∈ JsMap.values (classMap data) ->
  JsMap.get (classMap data) (id c) = Some c /\
  exists cls, c = entryOf (declaredEdges xmlDoc) (id c) cls.
Proof.
  intros [K G _] ([k c'] & -> & Hin)%list_elem_of_fmap. simpl.
  apply JsMap_elem_of_get in Hin; [|rewrite K; apply firstOccurrences_NoDup].
  pose proof Hin as Hin'. rewrite G in Hin'.
  destruct (last _) as [cls|]; simplify_eq/=. eauto.
Qed.

Lemma parseOWL_indexDocument `{DOMParser} `{Collator} xmlText :
  parseOWL xmlText = indexDocument (parseFromString xmlText).
Proof. done. Qed.

(** ** Properties of the parsed index *)

(** C6: in the index of every document, whenever a parent [p] of a class
    [c] is itself a key of [classMap], the identifier of [c] is among the
    children of the entry of [p]. *)
Theorem parents_children_inverse `{Collator} (xmlDoc : Document) :
  exists data, indexDocument xmlDoc = Some data /\
    forall c p pc,
      c ∈ JsMap.values (classMap data) ->
      p ∈ parents c ->
      JsMap.get (classMap data) p = Some pc ->
      id c ∈ children pc.
Proof.
  destruct (indexDocument_indexed xmlDoc) as (data & Hdata & Hidx).
  exists data. split; [done|]. intros c p pc Hc Hp Hpc.
  destruct (indexed_values _ _ _ Hidx Hc) as (_ & cls & Ec).
  rewrite (indexed_get _ _ Hidx) in Hpc.
  destruct (last _) as [pcls|]; simplify_eq/=.
  rewrite Ec in Hp. simpl in *.
  apply elem_of_childrenIn. by apply elem_of_parentsIn.
Qed.

Lemma parents_children_inverse_witness :
  "B" ∈ children
    {| id := "A"; label := "Bravo"; description := "";
       children := ["B"; "C"]; parents := [] |}.
Proof.
  destruct (@parents_children_inverse codeCollator treeDoc) as (data & Hdata & Hinv).
  vm_compute in Hdata. injection Hdata as <-.
  apply (Hinv {| id := "B"; label := "Charlie"; description := "";
                 children := []; parents := ["A"] |} "A").
  - apply list_elem_of_In. vm_compute. tauto.
  - apply list_elem_of_In. vm_compute. tauto.
  - reflexivity.
Defined.

Lemma elem_of_declaredEdges xmlDoc c p :
  (c, p) ∈ declaredEdges xmlDoc <->
  exists cls sub,
    cls ∈ docGetElementsByTagName xmlDoc "owl:Class" /\ declaredId cls = Some c /\
    sub ∈ getElementsByTagName cls "rdfs:subClassOf" /\ resourceOf sub = Some p.
Proof.
  unfold declaredEdges, declarations. rewrite list_elem_of_In, in_flat_map. split.
  - intros ([i cls] & Hdecl%list_elem_of_In & Hedge).
    apply list_elem_of_omap in Hdecl as (cls' & Hcls & Hd).
    unfold declaration in Hd. destruct (declaredId cls') as [i'|] eqn:Hid; simplify_eq/=.
    unfold edgesOf in Hedge. simpl in Hedge.
    apply in_map_iff in Hedge as (q & [= -> ->] & Hq%list_elem_of_In).
    apply list_elem_of_omap in Hq as (sub & Hsub & Hres). eauto 10.
  - intros (cls & sub & Hcls & Hid & Hsub & Hres). exists (c, cls). split.
    + apply list_elem_of_In, list_elem_of_omap. exists cls. split; [done|].
      unfold declaration. by rewrite Hid.
    + unfold edgesOf. simpl. apply in_map, list_elem_of_In, list_elem_of_omap. eauto.
Qed.

(** C8, as the code has it: [children] and [parents] hold one identifier
    for every edge that the scan records.  An edge from [c] to [p] is
    recorded for every class element with the identifier [c] and every
    [rdfs:subClassOf] element below it, at any depth, that names [p]; a
    [rdfs:subClassOf] element inside a nested class element therefore
    counts for the enclosing class element as well.  An edge recorded [n]
    times occurs [n] times in the parents of the child and in the children
    of the parent; the two fields are free of duplicates when no edge is
    recorded twice. *)
Theorem edges_one_entry_per_declaration `{Collator} (xmlDoc : Document) :
  exists data, indexDocument xmlDoc = Some data /\
    (forall c p,
       (c, p) ∈ declaredEdges xmlDoc <->
       exists cls sub,
         cls ∈ docGetElementsByTagName xmlDoc "owl:Class" /\
         declaredId cls = Some c /\
         sub ∈ getElementsByTagName cls "rdfs:subClassOf" /\
         resourceOf sub = Some p) /\
    forall k node, JsMap.get (classMap data) k = Some node ->
      (forall p, occurrences p (parents node) = occurrences (k, p) (declaredEdges xmlDoc)) /\
      (forall c, occurrences c (children node) = occurrences (c, k) (declaredEdges xmlDoc)) /\
      (NoDup (declaredEdges xmlDoc) -> NoDup (children node) /\ NoDup (parents node)).
Proof.
  destruct (indexDocument_indexed xmlDoc) as (data & Hdata & Hidx).
  exists data. split; [done|]. split; [apply elem_of_declaredEdges|].
  intros k node Hk.
  rewrite (indexed_get _ _ Hidx) in Hk.
  destruct (last _) as [cls|]; simplify_eq/=. split_and!.
  - intros p. apply occurrences_parentsIn.
  - intros c. apply occurrences_childrenIn.
  - intros Hnd. split; [by apply childrenIn_NoDup|by apply parentsIn_NoDup].
Qed.

Lemma edges_one_entry_per_declaration_witness :
  NoDup ["B"; "C"] /\ NoDup (@nil string).
Proof.
  destruct (@edges_one_entry_per_declaration codeCollator treeDoc)
    as (data & Hdata & _ & Hedges).
  vm_compute in Hdata. injection Hdata as <-.
  destruct (Hedges "A" {| id := "A"; label := "Bravo"; description := "";
                          children := ["B"; "C"]; parents := [] |} eq_refl)
    as (_ & _ & Hnd).
  apply Hnd. apply (bool_decide_unpack (NoDup _)). vm_compute. exact I.
Defined.

(** C8 as stated fails: an edge declared twice is stored twice. *)
Lemma duplicate_edge_counterexample :
  exists data node,
    @indexDocument codeCollator repeatedEdgeDoc = Some data /\
    JsMap.get (classMap data) "A" = Some node /\
    ~ NoDup (parents node).
Proof.
  eexists _, _. split_and!; [vm_compute; reflexivity|vm_compute; reflexivity|].
  intros [Hnin _]%NoDup_cons. apply Hnin. left.
Qed.

(** C9: an identifier that several class elements declare has one entry in
    [classMap]; its label and description are those of the last such
    element, its parents are the parents named by all of them, in document
    order, and every entry [p] lists the identifier among its children as
    often as those elements name [p]. *)
Theorem redeclared_class_merged `{Collator} (xmlDoc : Document) :
  exists data, indexDocument xmlDoc = Some data /\
    NoDup (JsMap.keys (classMap data)) /\
    forall k cls,
      last (declarationsOf k (declarations xmlDoc)) = Some cls ->
      exists node,
        JsMap.get (classMap data) k = Some node /\
        k ∈ JsMap.keys (classMap data) /\
        id node = k /\
        label node = classLabel cls k /\
        description node = classDescription cls /\
        parents node
          = flat_map declaredParents (declarationsOf k (declarations xmlDoc)) /\
        forall p pnode, JsMap.get (classMap data) p = Some pnode ->
          occurrences k (children pnode) = occurrences p (parents node).
Proof.
  destruct (indexDocument_indexed xmlDoc) as (data & Hdata & Hidx).
  exists data. split; [done|]. split.
  { rewrite (indexed_keys _ _ Hidx). apply firstOccurrences_NoDup. }
  intros k cls Hlast. pose proof (indexed_get _ _ Hidx k) as Hk.
  rewrite Hlast in Hk. simpl in Hk. eexists. split; [exact Hk|].
  split_and!; try done.
  - apply JsMap_get_Some_keys. by rewrite Hk.
  - simpl. apply parentsIn_edges.
  - intros p pnode Hp. rewrite (indexed_get _ _ Hidx) in Hp.
    destruct (last (declarationsOf p _)); simplify_eq/=.
    by rewrite occurrences_childrenIn, occurrences_parentsIn.
Qed.

Lemma redeclared_class_merged_witness :
  exists node,
    JsMap.get
      [("A", {| id := "A"; label := "Second"; description := "";
                children := []; parents := ["P"; "Q"] |});
       ("P", {| id := "P"; label := "P"; description := "";
                children := ["A"]; parents := [] |})] "A" = Some node /\
    label node = "Second" /\ parents node = ["P"; "Q"].
Proof.
  destruct (@redeclared_class_merged codeCollator redeclaredDoc)
    as (data & Hdata & _ & Hlast).
  vm_compute in Hdata. injection Hdata as <-.
  destruct (Hlast "A" (owlClass "A" [rdfsLabel "Second"; subClassOf "Q"]) eq_refl)
    as (node & Hget & _ & _ & Hlabel & _ & Hparents & _).
  exists node. split_and!; [exact Hget|exact Hlabel|exact Hparents].
Defined.

(** C3: [roots] is the list of the entries without parents, sorted by label
    with ties in the order of [classMap]; when there is no such entry it is
    the first ten entries of [classMap], sorted in the same way.  The
    entries of [classMap] stand in the order in which their identifiers are
    first declared, and [roots] is empty only if [classMap] is. *)
Theorem roots_sorted_with_fallback `{Collator} (xmlDoc : Document) :
  exists data, indexDocument xmlDoc = Some data /\
    let all := JsMap.values (classMap data) in
    let parentless := List.filter hasNoParents all in
    (forall c, c ∈ parentless <-> c ∈ all /\ parents c = []) /\
    (parentless <> [] -> StableSortOf byLabel parentless (roots data)) /\
    (parentless = [] -> StableSortOf byLabel (take 10 all) (roots data)) /\
    JsMap.keys (classMap data) = firstOccurrences (declarations xmlDoc).*1 /\
    (classMap data <> [] -> roots data <> []).
Proof.
  destruct (indexDocument_indexed xmlDoc) as (data & Hdata & Hidx).
  exists data. split; [done|]. intros all parentless.
  pose proof (indexed_roots _ _ Hidx) as Hroots. simpl in Hroots.
  fold all in Hroots. fold parentless in Hroots.
  assert (Hnil : parentless = [] -> roots data = sort byLabel (take 10 all)).
  { intros E. by rewrite Hroots, E. }
  assert (Hcons : parentless <> [] -> roots data = sort byLabel parentless).
  { intros E. rewrite Hroots. by destruct parentless. }
  split_and!.
  - intros c. unfold parentless. rewrite !list_elem_of_In, filter_In.
    unfold hasNoParents. rewrite Nat.eqb_eq, length_zero_iff_nil. done.
  - intros E. rewrite (Hcons E). apply byLabel_StableSortOf.
  - intros E. rewrite (Hnil E). apply byLabel_StableSortOf.
  - apply (indexed_keys _ _ Hidx).
  - intros Hne Hr. destruct (decide (parentless = [])) as [E|E].
    + rewrite (Hnil E) in Hr.
      apply (f_equal length) in Hr.
      rewrite (Permutation_length (sort_Permutation _ _)), length_take in Hr.
      unfold all, JsMap.values in Hr. rewrite length_map in Hr.
      destruct (classMap data); simpl in *; [done|lia].
    + rewrite (Hcons E) in Hr. apply E.
      apply Permutation_nil_r. rewrite <- Hr. symmetry. apply sort_Permutation.
Qed.

Lemma roots_sorted_with_fallback_witness :
  StableSortOf (@byLabel codeCollator)
    [{| id := "A"; label := "Alpha"; description := "";
        children := ["B"; "C"]; parents := ["B"] |};
     {| id := "B"; label := "Bravo"; description := "";
        children := ["A"]; parents := ["A"] |};
     {| id := "C"; label := "Charlie"; description := "";
        children := []; parents := ["A"] |}]
    [{| id := "A"; label := "Alpha"; description := "";
        children := ["B"; "C"]; parents := ["B"] |};
     {| id := "B"; label := "Bravo"; description := "";
        children := ["A"]; parents := ["A"] |};
     {| id := "C"; label := "Charlie"; description := "";
        children := []; parents := ["A"] |}].
Proof.
  destruct (@roots_sorted_with_fallback codeCollator cycleDoc)
    as (data & Hdata & _ & _ & Hfallback & _).
  vm_compute in Hdata. injection Hdata as <-.
  apply Hfallback. reflexivity.
Defined.

(** C7: [parseOWL] returns an index for every text.  The keys of
    [classMap] are the identifiers of the class elements that have one: an
    element with neither [rdf:about] nor [rdf:ID] adds no entry.  When the
    parser's answer holds no class element, as its error document does,
    the index has no classes and no roots. *)
Theorem parseOWL_never_throws `{DOMParser} `{Collator} (xmlText : string) :
  exists data, parseOWL xmlText = Some data /\
    let classes := docGetElementsByTagName (parseFromString xmlText) "owl:Class" in
    (forall k, k ∈ JsMap.keys (classMap data) <->
               exists cls, cls ∈ classes /\ declaredId cls = Some k) /\
    (forall cls, getAttribute cls "rdf:about" = None ->
                 getAttribute cls "rdf:ID" = None -> declaredId cls = None) /\
    (classes = [] -> classMap data = [] /\ roots data = []).
Proof.
  rewrite parseOWL_indexDocument.
  destruct (indexDocument_indexed (parseFromString xmlText)) as (data & Hdata & Hidx).
  exists data. split; [done|]. intros classes. split_and!.
  - intros k. rewrite (indexed_keys _ _ Hidx), firstOccurrences_elem_of.
    rewrite list_elem_of_fmap. unfold declarations. fold classes. split.
    + intros ([i cls] & -> & Hin). apply list_elem_of_omap in Hin as (c & Hc & Hd).
      unfold declaration in Hd. destruct (declaredId c) eqn:E; simplify_eq/=. eauto.
    + intros (cls & Hin & Hid). exists (k, cls). split; [done|].
      apply list_elem_of_omap. exists cls. split; [done|].
      unfold declaration. by rewrite Hid.
  - intros cls Ha Hi. unfold declaredId, classId. by rewrite Ha, Hi.
  - intros Hnone.
    assert (Hcm : classMap data = []).
    { pose proof (indexed_keys _ _ Hidx) as K. unfold declarations in K.
      fold classes in K. rewrite Hnone in K. by destruct (classMap data). }
    split; [done|]. rewrite (indexed_roots _ _ Hidx), Hcm. done.
Qed.

Lemma parseOWL_never_throws_witness :
  exists data, @parseOWL failingParser codeCollator "" = Some data /\
    classMap data = [] /\ roots data = [].
Proof.
  destruct (@parseOWL_never_throws failingParser codeCollator "")
    as (data & Hdata & _ & _ & Hnone).
  exists data. split; [exact Hdata|]. apply Hnone. reflexivity.
Defined.

(** ** Segments *)

Lemma split_splitBy sep s : split sep s = splitBy (fun c => Ascii.eqb c sep) s.
Proof. induction s as [|c r IH]; simpl; [done|]. by rewrite IH. Qed.

Lemma splitBy_plain p s : mentions p s = false -> splitBy p s = [s].
Proof.
  induction s as [|c r IH]; simpl; [done|].
  intros [Hc Hr]%orb_false_iff. by rewrite Hc, (IH Hr).
Qed.

Lemma splitBy_separated p s :
  mentions p s = true -> exists h x t, splitBy p s = h :: x :: t.
Proof.
  induction s as [|c r IH]; simpl; [done|].
  destruct (p c); simpl.
  - intros _. destruct (mentions p r) eqn:Hr.
    + destruct (IH eq_refl) as (h & x & t & ->). eauto.
    + rewrite (splitBy_plain _ _ Hr). eauto.
  - intros Hr. destruct (IH Hr) as (h & x & t & ->). eauto.
Qed.

Lemma splitBy_last p s : exists y, last (splitBy p s) = Some y.
Proof.
  destruct (mentions p s) eqn:Hs.
  - destruct (splitBy_separated _ _ Hs) as (h & x & t & ->).
    rewrite last_cons_cons, last_cons. destruct (last t); eauto.
  - rewrite (splitBy_plain _ _ Hs). eauto.
Qed.

Lemma last_splitBy p s : last (splitBy p s) = Some (finalSegment p s).
Proof.
  unfold finalSegment. by destruct (splitBy_last p s) as [y ->].
Qed.

Lemma finalSegment_cons p c r :
  finalSegment p (String c r)
  = if p c || mentions p r then finalSegment p r else String c r.
Proof.
  unfold finalSegment. simpl. destruct (p c); simpl.
  - rewrite last_cons. by destruct (splitBy_last p r) as [y ->].
  - destruct (mentions p r) eqn:Hr.
    + destruct (splitBy_separated _ _ Hr) as (h & x & t & ->).
      by rewrite !last_cons_cons.
    + by rewrite (splitBy_plain _ _ Hr).
Qed.

Lemma isSeparator_no_hash c :
  Ascii.eqb c "#" = false -> isSeparator c = Ascii.eqb c "/".
Proof. unfold isSeparator. by intros ->. Qed.

Lemma mentions_no_hash s :
  mentions (fun c => Ascii.eqb c "#") s = false ->
  mentions isSeparator s = mentions (fun c => Ascii.eqb c "/") s.
Proof.
  induction s as [|c r IH]; simpl; [done|].
  intros [Hc Hr]%orb_false_iff. by rewrite (isSeparator_no_hash _ Hc), (IH Hr).
Qed.

Lemma finalSegment_no_hash s :
  mentions (fun c => Ascii.eqb c "#") s = false ->
  finalSegment (fun c => Ascii.eqb c "/") s = finalSegment isSeparator s.
Proof.
  induction s as [|c r IH]; [done|]. simpl.
  intros [Hc Hr]%orb_false_iff. rewrite !finalSegment_cons, (IH Hr).
  by rewrite (isSeparator_no_hash _ Hc), (mentions_no_hash _ Hr).
Qed.

Lemma mentions_hash_separator s :
  mentions (fun c => Ascii.eqb c "#") s = true -> mentions isSeparator s = true.
Proof.
  induction s as [|c r IH]; simpl; [done|].
  unfold isSeparator at 1. destruct (Ascii.eqb c "#"); simpl; [done|].
  intros Hr. rewrite (IH Hr). apply orb_true_r.
Qed.

(** Splitting on ['#'] and then on ['/'] ends in the same segment as
    splitting on both. *)
Lemma lastSegment_segments i : lastSegment i = last (segments i).
Proof.
  unfold lastSegment, pop, segments.
  rewrite !split_splitBy, !last_splitBy. simpl.
  rewrite split_splitBy, last_splitBy. f_equal.
  induction i as [|c r IH]; [done|].
  rewrite (finalSegment_cons (fun c => Ascii.eqb c "#")), (finalSegment_cons isSeparator).
  destruct (Ascii.eqb c "#" || mentions (fun c => Ascii.eqb c "#") r) eqn:E.
  - rewrite IH.
    assert (isSeparator c || mentions isSeparator r = true) as ->; [|done].
    apply orb_true_iff in E as [E|E].
    + unfold isSeparator. by rewrite E.
    + rewrite (mentions_hash_separator _ E). apply orb_true_r.
  - rewrite <- (finalSegment_cons isSeparator).
    apply finalSegment_no_hash. simpl. exact E.
Qed.

Lemma finalNonEmptySegment_last i seg :
  last (segments i) = Some seg -> isEmpty seg = false ->
  finalNonEmptySegment i = seg.
Proof.
  intros [l Hl]%last_Some Hseg. unfold finalNonEmptySegment.
  rewrite Hl, filter_app, filter_cons, decide_True, filter_nil by by destruct seg.
  by rewrite last_snoc.
Qed.

(** C4, as the code has it: an entry whose declaration has no label element
    is labelled with the final segment of its identifier split on ['#'] and
    ['/'], which is then the final non-empty segment; when that final
    segment is empty, because the identifier ends in a separator, the label
    is the identifier itself. *)
Theorem fallback_label `{Collator} (xmlDoc : Document) :
  exists data, indexDocument xmlDoc = Some data /\
    forall k cls,
      last (declarationsOf k (declarations xmlDoc)) = Some cls ->
      getElementsByTagName cls "rdfs:label" = [] ->
      exists node seg,
        JsMap.get (classMap data) k = Some node /\
        last (segments k) = Some seg /\
        label node = if isEmpty seg then k else finalNonEmptySegment k.
Proof.
  destruct (indexDocument_indexed xmlDoc) as (data & Hdata & Hidx).
  exists data. split; [done|]. intros k cls Hlast Hnolabel.
  pose proof (indexed_get _ _ Hidx k) as Hk. rewrite Hlast in Hk. simpl in Hk.
  destruct (splitBy_last isSeparator k) as [seg Hseg].
  fold (segments k) in Hseg.
  exists (entryOf (declaredEdges xmlDoc) k cls), seg. split_and!; [done..|].
  simpl. unfold classLabel, firstText. rewrite Hnolabel. simpl.
  rewrite lastSegment_segments, Hseg. simpl.
  destruct (isEmpty seg) eqn:E; [done|].
  symmetry. by apply finalNonEmptySegment_last.
Qed.

Lemma fallback_label_witness :
  exists node seg,
    JsMap.get
      [("A", {| id := "A"; label := "Second"; description := "";
                children := []; parents := ["P"; "Q"] |});
       ("P", {| id := "P"; label := "P"; description := "";
                children := ["A"]; parents := [] |})] "P" = Some node /\
    last (segments "P") = Some seg /\
    label node = if isEmpty seg then "P" else finalNonEmptySegment "P".
Proof.
  destruct (@fallback_label codeCollator redeclaredDoc) as (data & Hdata & Hlabel).
  vm_compute in Hdata. injection Hdata as <-.
  apply (Hlabel "P" (owlClass "P" [])); reflexivity.
Defined.

(** C4 as stated fails: the identifier ends in ['/'], its final non-empty
    segment is [foo], and the label is the whole identifier. *)
Lemma trailing_separator_counterexample :
  exists data node,
    @indexDocument codeCollator trailingSlashDoc = Some data /\
    getElementsByTagName (owlClass "http://ex.org/foo/" []) "rdfs:label" = [] /\
    JsMap.get (classMap data) "http://ex.org/foo/" = Some node /\
    finalNonEmptySegment "http://ex.org/foo/" = "foo" /\
    label node = "http://ex.org/foo/" /\
    label node <> finalNonEmptySegment "http://ex.org/foo/".
Proof.
  eexists _, _. split_and!; try (vm_compute; reflexivity).
  vm_compute. discriminate.
Qed.

(** ** The queries *)

Lemma startsWith_spec s t : startsWith s t = true <-> exists post, s = t +:+ post.
Proof.
  revert s. induction t as [|b t IH]; intros s; simpl.
  - split; [intros _; by exists s|done].
  - destruct s as [|a s]; simpl.
    + split; [done|]. by intros [post ?].
    + rewrite andb_true_iff, Ascii.eqb_eq, IH. split.
      * intros [-> [post ->]]. eauto.
      * intros [post [= -> ->]]. eauto.
Qed.

Lemma includes_spec s t : includes s t = true <-> substring t s.
Proof.
  unfold substring. induction s as [|a s IH]; simpl.
  - rewrite orb_false_r, startsWith_spec. split.
    + intros [post ->]. by exists "", post.
    + intros ([|? pre] & post & Heq); [|done]. by exists post.
  - rewrite orb_true_iff, startsWith_spec, IH. split.
    + intros [[post ->]|(pre & post & ->)].
      * by exists "", post.
      * by exists (String a pre), post.
    + intros ([|? pre] & post & Heq); simpl in Heq.
      * left. by exists post.
      * right. injection Heq as -> ->. by exists pre, post.
Qed.

Lemma includes_empty s : includes s "" = true.
Proof. by destruct s. Qed.

Lemma someM_true {A} (f : A -> option bool) l :
  someM f l = Some true -> exists x, x ∈ l /\ f x = Some true.
Proof.
  induction l as [|x l IH]; simpl; [done|].
  destruct (f x) as [[]|] eqn:E; try done.
  - intros _. exists x. split; [left|done].
  - intros (y & Hy & Hf)%IH. exists y. split; [by right|done].
Qed.

Lemma someM_false {A} (f : A -> option bool) l :
  someM f l = Some false -> forall x, x ∈ l -> f x = Some false.
Proof.
  induction l as [|x l IH]; simpl; [by intros _ ? ?%elem_of_nil|].
  destruct (f x) as [[]|] eqn:E; try done.
  intros Hl y [->|Hy]%elem_of_cons; auto.
Qed.

Lemma someM_returns {A} (f : A -> option bool) l :
  (forall x, x ∈ l -> is_Some (f x)) -> is_Some (someM f l).
Proof.
  induction l as [|x l IH]; simpl; intros Hf; [done|].
  destruct (Hf x) as [[] ->]; [left|done|].
  apply IH. intros y Hy. apply Hf. by right.
Qed.

Lemma hasMatchingChild_unfold `{CaseFolding} fuel od k term :
  hasMatchingChild (S fuel) od k term =
  match nodeOf od k with
  | None => Some false
  | Some node =>
      if includes (toLowerCase (label node)) (toLowerCase term) then Some true
      else someM (fun c => hasMatchingChild fuel od c term) (children node)
  end.
Proof. done. Qed.

Lemma reaches_trans od a b c : reaches od a b -> reaches od b c -> reaches od a c.
Proof.
  induction 1; [done|]. intros. eapply reaches_child; eauto.
Qed.

(** A result [true] comes from a label at or below the node. *)
Lemma hasMatchingChild_true `{CaseFolding} fuel od term : forall k,
  hasMatchingChild fuel od k term = Some true -> matchBelow od k term.
Proof.
  induction fuel as [|fuel IH]; intros k; [done|].
  rewrite hasMatchingChild_unfold. destruct (nodeOf od k) as [node|] eqn:Hk; [|done].
  destruct (includes _ _) eqn:Hinc.
  - intros _. exists k, node. split_and!; [constructor|done|].
    by apply includes_spec.
  - intros (c & Hc & Hrec)%someM_true.
    destruct (IH _ Hrec) as (k' & node' & Hreach & Hnode & Hsub).
    exists k', node'. split_and!; [|done..].
    eapply reaches_child; [|done]. by exists node.
Qed.

(** A result [false] has looked at every label at or below the node. *)
Lemma hasMatchingChild_false `{CaseFolding} fuel od term : forall k,
  hasMatchingChild fuel od k term = Some false -> ~ matchBelow od k term.
Proof.
  induction fuel as [|fuel IH]; intros k; [done|].
  rewrite hasMatchingChild_unfold. destruct (nodeOf od k) as [node|] eqn:Hk.
  - destruct (includes _ _) eqn:Hinc; [done|].
    intros Hsome (k' & node' & Hreach & Hnode & Hsub).
    inversion Hreach as [|? c ? (node'' & Hk' & Hc) Hrest]; subst.
    + assert (node' = node) as -> by congruence.
      apply includes_spec in Hsub. congruence.
    + assert (node'' = node) as -> by congruence.
      apply (IH c); [exact (someM_false _ _ Hsome c Hc)|]. by exists k', node'.
  - intros _ (k' & node' & Hreach & Hnode & _).
    inversion Hreach as [|? c ? (node'' & Hk' & Hc) Hrest]; subst; congruence.
Qed.

Lemma hasMatchingChild_more_fuel `{CaseFolding} fuel od term : forall k b,
  hasMatchingChild fuel od k term = Some b ->
  hasMatchingChild (S fuel) od k term = Some b.
Proof.
  induction fuel as [|fuel IH]; intros k b; [done|].
  rewrite !(hasMatchingChild_unfold _ od k).
  destruct (nodeOf od k) as [node|]; [|done].
  destruct (includes _ _); [done|].
  induction (children node) as [|c cs IHcs]; cbn [someM]; [done|].
  destruct (hasMatchingChild fuel od c term) as [[]|] eqn:E; try done.
  - by rewrite (IH _ _ E).
  - rewrite (IH _ _ E). apply IHcs.
Qed.

(** A result does not change when the recursion is given more room. *)
Lemma hasMatchingChild_fuel_mono `{CaseFolding} fuel fuel' od k term b :
  fuel <= fuel' ->
  hasMatchingChild fuel od k term = Some b ->
  hasMatchingChild fuel' od k term = Some b.
Proof.
  induction 1; [done|]. intros. by apply hasMatchingChild_more_fuel, IHle.
Qed.

Lemma filterM_Some {A} (f : A -> option bool) l kept :
  filterM f l = Some kept ->
  (forall x, x ∈ l -> is_Some (f x)) /\
  (forall x, x ∈ kept <-> x ∈ l /\ f x = Some true).
Proof.
  revert kept. induction l as [|y l IH]; simpl; intros kept.
  - intros [= <-]. split; [by intros ? ?%elem_of_nil|].
    intros x. rewrite elem_of_nil. tauto.
  - destruct (f y) as [b|] eqn:Ey; simpl; [|done].
    destruct (filterM f l) as [r|]; simpl; [|done].
    destruct (IH r eq_refl) as [Hsome Hkept]. intros [= <-]. split.
    + intros x [->|Hx]%elem_of_cons; [by rewrite Ey|auto].
    + intros x. destruct b; rewrite !elem_of_cons, ?Hkept; split.
      * intros [->|[? ?]]; auto.
      * intros [[->|?] ?]; auto.
      * intros [? ?]; auto.
      * intros [[->|?] ?]; [congruence|auto].
Qed.

(** The roots that stay visible under a search term are those whose own
    label, or a label below them, contains the term. *)
Lemma filteredRootNodes_kept `{CaseFolding} fuel od rootNodes term kept :
  filteredRootNodes fuel od rootNodes term = Some kept ->
  (isEmpty term = true -> kept = rootNodes) /\
  (isEmpty term = false ->
   forall r, r ∈ kept <->
             r ∈ rootNodes /\
             (caseInsensitiveSubstring term (label r) \/ matchBelow od (id r) term)).
Proof.
  unfold filteredRootNodes. destruct (isEmpty term); intros Hkept.
  - split; [intros _; congruence|done].
  - split; [done|]. intros _ r.
    apply filterM_Some in Hkept as [Hsome ->]. split.
    + intros [Hr Hf]. split; [done|].
      destruct (includes _ _) eqn:Hinc.
      * left. by apply includes_spec.
      * right. by eapply hasMatchingChild_true.
    + intros [Hr Hmatch]. split; [done|].
      destruct (Hsome r Hr) as [b Hb]. rewrite Hb. f_equal.
      destruct (includes _ _) eqn:Hinc; [congruence|].
      destruct Hmatch as [Hsub%includes_spec|Hbelow]; [congruence|].
      destruct b; [done|]. by eapply hasMatchingChild_false in Hbelow.
Qed.

Lemma nodeOf_keysOf od k : is_Some (nodeOf od k) <-> k ∈ keysOf od.
Proof.
  destruct od as [data|]; simpl.
  - apply JsMap_get_Some_keys.
  - split; [by intros [? ?]|by intros ?%elem_of_nil].
Qed.

(** The calls in progress form a path of distinct entries, so the depth of
    the recursion stays within the number of entries when no cycle is in
    reach. *)
Lemma hasMatchingChild_returns_on_path `{CaseFolding} od term fuel : forall k path,
  NoDup path ->
  (forall p, p ∈ path -> exists c, childEdge od p c /\ reaches od c k) ->
  acyclicBelow od k ->
  length (keysOf od) < length path + fuel ->
  is_Some (hasMatchingChild fuel od k term).
Proof.
  induction fuel as [|fuel IH]; intros k path Hnd Hpath Hacyclic Hlen.
  - exfalso. assert (length path <= length (keysOf od)); [|lia].
    apply submseteq_length, NoDup_submseteq; [done|].
    intros p (c & (node & Hp & _) & _)%Hpath.
    apply nodeOf_keysOf. by rewrite Hp.
  - rewrite hasMatchingChild_unfold.
    destruct (nodeOf od k) as [node|] eqn:Hk; [|done].
    destruct (includes _ _); [done|].
    apply someM_returns. intros c Hc.
    assert (Hedge : childEdge od k c) by by exists node.
    apply (IH c (k :: path)).
    + apply NoDup_cons. split; [|done].
      intros Hin. apply (Hacyclic k); [constructor|]. by apply Hpath.
    + intros p [->|Hp]%elem_of_cons.
      * exists c. split; [done|constructor].
      * destruct (Hpath p Hp) as (c' & Hpc & Hreach). exists c'. split; [done|].
        eapply reaches_trans; [done|]. eapply reaches_child; [done|constructor].
    + intros k' Hreach. apply Hacyclic. by eapply reaches_child.
    + simpl. lia.
Qed.

Lemma hasMatchingChild_returns `{CaseFolding} od k term :
  acyclicBelow od k ->
  exists b, hasMatchingChild (S (length (keysOf od))) od k term = Some b.
Proof.
  intros Hacyclic.
  apply (hasMatchingChild_returns_on_path od term _ k []);
    [apply NoDup_nil_2|by intros ? ?%elem_of_nil|done|simpl; lia].
Qed.

(** A ranking rules out cycles. *)
Lemma reaches_rank rank data k k' :
  ranked rank data = true -> reaches (Some data) k k' ->
  is_Some (JsMap.get (classMap data) k') -> rank k' <= rank k.
Proof.
  intros Hranked. induction 1 as [|k c k' (node & Hk & Hc) Hreach IH]; [done|].
  intros Hk'. specialize (IH Hk').
  assert (is_Some (JsMap.get (classMap data) c)) as Hsome.
  { inversion Hreach as [|? c' ? (node' & Hc' & _)]; subst; [done|].
    simpl in Hc'. by rewrite Hc'. }
  unfold ranked in Hranked. rewrite forallb_forall in Hranked.
  simpl in Hk. apply JsMap_get_elem_of, list_elem_of_In, Hranked in Hk.
  rewrite forallb_forall in Hk. apply list_elem_of_In, Hk in Hc.
  unfold JsMap.has in Hc. destruct Hsome as [? Hsome]. rewrite Hsome in Hc.
  simpl in Hc. apply Nat.ltb_lt in Hc. lia.
Qed.

Lemma ranked_acyclicBelow rank data k :
  ranked rank data = true -> acyclicBelow (Some data) k.
Proof.
  intros Hranked k' _ (c & (node & Hk' & Hc) & Hreach).
  assert (rank k' <= rank c).
  { eapply reaches_rank; [done..|]. simpl in Hk'. by rewrite Hk'. }
  assert (is_Some (JsMap.get (classMap data) c)) as [? Hsome].
  { inversion Hreach as [|? c' ? (node' & Hc' & _)]; subst.
    - simpl in Hk'. by rewrite Hk'.
    - simpl in Hc'. by rewrite Hc'. }
  unfold ranked in Hranked. rewrite forallb_forall in Hranked.
  simpl in Hk'. apply JsMap_get_elem_of, list_elem_of_In, Hranked in Hk'.
  rewrite forallb_forall in Hk'. apply list_elem_of_In, Hk' in Hc.
  unfold JsMap.has in Hc. rewrite Hsome in Hc.
  simpl in Hc. apply Nat.ltb_lt in Hc. lia.
Qed.

(** On the index of [cycleDoc] the search for a term that neither Alpha
    nor Bravo contains goes round the cycle of A and B for ever. *)
Lemma cycle_never_returns `{CaseFolding} term :
  includes (toLowerCase "Alpha") (toLowerCase term) = false ->
  includes (toLowerCase "Bravo") (toLowerCase term) = false ->
  forall fuel,
    hasMatchingChild fuel (@indexDocument codeCollator cycleDoc) "A" term = None /\
    hasMatchingChild fuel (@indexDocument codeCollator cycleDoc) "B" term = None.
Proof.
  intros HA HB.
  set (od := @indexDocument codeCollator cycleDoc).
  assert (HnA : nodeOf od "A" =
    Some {| id := "A"; label := "Alpha"; description := "";
            children := ["B"; "C"]; parents := ["B"] |}) by (vm_compute; reflexivity).
  assert (HnB : nodeOf od "B" =
    Some {| id := "B"; label := "Bravo"; description := "";
            children := ["A"]; parents := ["A"] |}) by (vm_compute; reflexivity).
  clearbody od.
  induction fuel as [|fuel [IHA IHB]]; [done|].
  rewrite !hasMatchingChild_unfold, HnA, HnB. cbn [label children].
  rewrite HA, HB. cbn [someM]. by rewrite IHA, IHB.
Qed.

(** Paths, counted. *)
Lemma reaches_reachesIn od k k' : reaches od k k' -> exists n, reachesIn od n k k'.
Proof.
  induction 1 as [k|k c k' Hedge _ [n IH]].
  - exists 0. constructor.
  - exists (S n). by econstructor.
Qed.

Lemma reachesIn_trans od n m a b c :
  reachesIn od n a b -> reachesIn od m b c -> reachesIn od (n + m) a c.
Proof.
  induction 1 as [k|n k c' k' Hedge _ IH]; [done|].
  intros Hbc. simpl. econstructor; [done|]. by apply IH.
Qed.

(** Round a cycle as often as one likes. *)
Lemma onCycle_long od k : onCycle od k -> forall j, exists n, j <= n /\ reachesIn od n k k.
Proof.
  intros (c & Hedge & [m Hm]%reaches_reachesIn).
  assert (Hloop : reachesIn od (S m) k k) by by econstructor.
  induction j as [|j (n & Hn & Hpath)].
  - exists 0. split; [done|constructor].
  - exists (S m + n). split; [lia|]. by eapply reachesIn_trans.
Qed.

(** A result [false] has followed every path to its end. *)
Lemma hasMatchingChild_false_depth `{CaseFolding} fuel od term : forall k,
  hasMatchingChild fuel od k term = Some false ->
  forall n k', reachesIn od n k k' -> n < fuel.
Proof.
  induction fuel as [|fuel IH]; intros k; [done|].
  rewrite hasMatchingChild_unfold. intros Hfalse n k' Hpath.
  destruct Hpath as [k|n k c k' (node & Hk & Hc) Hpath]; [lia|].
  rewrite Hk in Hfalse. destruct (includes _ _); [done|].
  pose proof (someM_false _ _ Hfalse c Hc) as Hchild. simpl in Hchild.
  pose proof (IH c Hchild n k' Hpath). lia.
Qed.

Lemma hasMatchingChild_cycle_not_false `{CaseFolding} fuel od k term :
  (exists k', reaches od k k' /\ onCycle od k') ->
  hasMatchingChild fuel od k term <> Some false.
Proof.
  intros (k' & [a Ha]%reaches_reachesIn & Hcycle) Hfalse.
  destruct (onCycle_long od k' Hcycle fuel) as (n & Hn & Hloop).
  pose proof (hasMatchingChild_false_depth _ _ _ _ Hfalse _ _
                (reachesIn_trans _ _ _ _ _ _ Ha Hloop)). lia.
Qed.

(** Nothing below [k] matches when [k] lies in a set of identifiers that
    is closed under children and holds no matching label. *)
Lemma no_matchBelow `{CaseFolding} od (ids : list string) k term :
  k ∈ ids ->
  (forall a node, a ∈ ids -> nodeOf od a = Some node ->
     includes (toLowerCase (label node)) (toLowerCase term) = false /\
     forall c, c ∈ children node -> c ∈ ids) ->
  ~ matchBelow od k term.
Proof.
  intros Hk Hclosed (k' & node & Hreach & Hnode & Hsub).
  assert (Hk' : k' ∈ ids).
  { clear Hnode Hsub. induction Hreach as [k|k c k' (n & Hn & Hc) _ IH]; [done|].
    apply IH. by apply (Hclosed k n). }
  destruct (Hclosed k' node Hk' Hnode) as [Hinc _].
  apply includes_spec in Hsub. congruence.
Qed.

(** C1, as the code has it: [hasMatchingChild] returns, within a recursion
    depth of one more than the number of entries, whenever no cycle of
    children edges can be reached from the node; and it never returns when
    a cycle can be reached from the node and no label at or below the node
    contains the term. *)
Theorem hasMatchingChild_returns_without_cycle `{CaseFolding}
  (ontologyData : option OntologyData) (nodeId term : string) :
  (acyclicBelow ontologyData nodeId ->
   exists b,
     hasMatchingChild (S (length (keysOf ontologyData))) ontologyData nodeId term
     = Some b) /\
  ((exists k, reaches ontologyData nodeId k /\ onCycle ontologyData k) ->
   ~ matchBelow ontologyData nodeId term ->
   forall fuel, hasMatchingChild fuel ontologyData nodeId term = None).
Proof.
  split.
  - apply hasMatchingChild_returns.
  - intros Hcycle Hnomatch fuel.
    destruct (hasMatchingChild fuel ontologyData nodeId term) as [[]|] eqn:E; [| |done].
    + by apply hasMatchingChild_true in E.
    + by apply hasMatchingChild_cycle_not_false in E.
Qed.

Lemma hasMatchingChild_returns_without_cycle_witness :
  (exists b, @hasMatchingChild asciiFolding 4 (Some treeIndex) "A" "zulu" = Some b) /\
  (forall fuel, @hasMatchingChild asciiFolding fuel (Some cycleIndex) "A" "zulu" = None).
Proof.
  split.
  - apply (proj1 (@hasMatchingChild_returns_without_cycle asciiFolding
                    (Some treeIndex) "A" "zulu")).
    apply (ranked_acyclicBelow (fun k => if String.eqb k "A" then 1 else 0)).
    reflexivity.
  - apply (proj2 (@hasMatchingChild_returns_without_cycle asciiFolding
                    (Some cycleIndex) "A" "zulu")).
    + exists "A". split; [constructor|]. exists "B". split.
      * eexists. split; [reflexivity|]. left.
      * eapply reaches_child; [|constructor]. eexists. split; [reflexivity|]. left.
    + apply (no_matchBelow _ ["A"; "B"; "C"]); [left|].
      intros a node Ha Hnode.
      repeat (apply elem_of_cons in Ha as [->|Ha]); [| | |by apply elem_of_nil in Ha];
        injection Hnode as <-; (split; [reflexivity|]); simpl; intros c Hc;
        repeat (apply elem_of_cons in Hc as [->|Hc]); try by apply elem_of_nil in Hc.
      all: apply list_elem_of_In; simpl; tauto.
Defined.

(** C1 as stated fails: on the two-class cycle the search for a term that
    no label contains never returns, whatever the case mapping. *)
Lemma cycle_counterexample :
  ~ exists (F : CaseFolding) fuel b,
      @hasMatchingChild F fuel (@indexDocument codeCollator cycleDoc) "A" "zulu"
      = Some b.
Proof.
  intros (F & fuel & b & Hb).
  destruct (@cycle_never_returns F "zulu") with (fuel := fuel) as [HA _];
    [by rewrite !toLowerCase_ascii by reflexivity..|].
  congruence.
Qed.




(** C10: with the empty term the search returns [true] on every key of
    [classMap], and on an identifier that is not a key it returns [false]
    for every term. *)
Theorem hasMatchingChild_edge_cases `{CaseFolding} (data : OntologyData) (nodeId : string) :
  (JsMap.has (classMap data) nodeId = true ->
   forall fuel, hasMatchingChild (S fuel) (Some data) nodeId "" = Some true) /\
  (JsMap.has (classMap data) nodeId = false ->
   forall term fuel, hasMatchingChild (S fuel) (Some data) nodeId term = Some false).
Proof.
  unfold JsMap.has. split; intros Hhas; intros; rewrite hasMatchingChild_unfold; simpl;
    destruct (JsMap.get (classMap data) nodeId); try done.
  by rewrite (toLowerCase_ascii "" eq_refl), includes_empty.
Qed.

Lemma hasMatchingChild_edge_cases_witness :
  @hasMatchingChild asciiFolding 1
    (Some {| classMap :=
               [("A", {| id := "A"; label := "Alpha"; description := "";
                         children := ["B"]; parents := ["B"] |});
                ("B", {| id := "B"; label := "Bravo"; description := "";
                         children := ["A"]; parents := ["A"] |})];
             roots := [] |}) "A" "" = Some true /\
  @hasMatchingChild asciiFolding 1
    (Some {| classMap :=
               [("A", {| id := "A"; label := "Alpha"; description := "";
                         children := ["B"]; parents := ["B"] |});
                ("B", {| id := "B"; label := "Bravo"; description := "";
                         children := ["A"]; parents := ["A"] |})];
             roots := [] |}) "Z" "alpha" = Some false.
Proof.
  split.
  - apply hasMatchingChild_edge_cases. reflexivity.
  - apply hasMatchingChild_edge_cases. reflexivity.
Defined.

(** C5: [getChildNodes] returns the entries of the children of the node,
    the identifiers without an entry left out, sorted by label with ties in
    the order of [children]; for an identifier that is not a key, and
    before a document has been loaded, it returns the empty list. *)
Theorem getChildNodes_resolved_sorted `{Collator} (data : OntologyData)
  (nodeId : string) :
  (forall node, JsMap.get (classMap data) nodeId = Some node ->
     let resolved := omap (JsMap.get (classMap data)) (children node) in
     (forall c, c ∈ resolved <->
                exists childId, childId ∈ children node /\
                                JsMap.get (classMap data) childId = Some c) /\
     StableSortOf byLabel resolved (getChildNodes (Some data) nodeId)) /\
  (JsMap.get (classMap data) nodeId = None ->
   getChildNodes (Some data) nodeId = []) /\
  getChildNodes None nodeId = [].
Proof.
  split_and!; [|by intros Hnone; simpl; rewrite Hnone|done].
  intros node Hnode resolved. split.
  - intros c. apply list_elem_of_omap.
  - simpl. rewrite Hnode. apply byLabel_StableSortOf.
Qed.

Lemma getChildNodes_resolved_sorted_witness :
  StableSortOf (@byLabel codeCollator)
    [{| id := "B"; label := "Charlie"; description := "";
        children := []; parents := ["A"] |};
     {| id := "C"; label := "Alpha"; description := "";
        children := []; parents := ["A"] |}]
    [{| id := "C"; label := "Alpha"; description := "";
        children := []; parents := ["A"] |};
     {| id := "B"; label := "Charlie"; description := "";
        children := []; parents := ["A"] |}].
Proof.
  pose proof (@getChildNodes_resolved_sorted codeCollator
    {| classMap :=
         [("A", {| id := "A"; label := "Bravo"; description := "";
                   children := ["B"; "missing"; "C"]; parents := [] |});
          ("B", {| id := "B"; label := "Charlie"; description := "";
                   children := []; parents := ["A"] |});
          ("C", {| id := "C"; label := "Alpha"; description := "";
                   children := []; parents := ["A"] |})];
       roots := [] |} "A") as (Hnode & _ & _).
  exact (proj2 (Hnode _ eq_refl)).
Defined.

(** ** More on the parsed index *)

Lemma declaration_nonempty cls i d : declaration cls = Some (i, d) -> isEmpty i = false.
Proof.
  unfold declaration, declaredId, truthy, jsOr.
  destruct (classId cls) as [j|]; simpl; [|done].
  destruct (isEmpty j) eqn:E; simpl; [done|]. by intros [= <- _].
Qed.

Lemma declarations_nonempty xmlDoc i :
  i ∈ (declarations xmlDoc).*1 -> isEmpty i = false.
Proof.
  intros ([j d] & -> & Hin)%list_elem_of_fmap.
  apply list_elem_of_omap in Hin as (cls & _ & Hd). by eapply declaration_nonempty.
Qed.

Lemma edge_child_declared ds c p :
  (c, p) ∈ flat_map edgesOf ds -> c ∈ ds.*1.
Proof.
  rewrite list_elem_of_In, in_flat_map. intros ([i cls] & Hin & Hedge).
  unfold edgesOf in Hedge. simpl in Hedge. apply in_map_iff in Hedge as (q & [= -> ->] & _).
  apply list_elem_of_fmap. exists (c, cls). split; [done|]. by apply list_elem_of_In.
Qed.

Lemma indexed_wellKeyed `{Collator} xmlDoc data :
  indexed xmlDoc data -> wellKeyed data.
Proof.
  intros Hidx. assert (Hnd : NoDup (JsMap.keys (classMap data))).
  { rewrite (indexed_keys _ _ Hidx). apply firstOccurrences_NoDup. }
  split; [done|]. intros k node Hin.
  apply JsMap_elem_of_get in Hin; [|done]. rewrite (indexed_get _ _ Hidx) in Hin.
  by destruct (last _); simplify_eq/=.
Qed.

Lemma wellKeyed_values data node :
  wellKeyed data -> node ∈ JsMap.values (classMap data) ->
  JsMap.get (classMap data) (id node) = Some node /\ id node ∈ JsMap.keys (classMap data).
Proof.
  intros [Hnd Hid] ([k n] & -> & Hin)%list_elem_of_fmap. simpl.
  rewrite (Hid _ _ Hin). split; [by apply JsMap_elem_of_get|].
  apply list_elem_of_fmap. by exists (k, n).
Qed.

Lemma wellKeyed_get data k node :
  wellKeyed data -> JsMap.get (classMap data) k = Some node ->
  id node = k /\ node ∈ JsMap.values (classMap data).
Proof.
  intros [_ Hid] Hget%JsMap_get_elem_of. split; [by apply Hid|].
  apply list_elem_of_fmap. by exists (k, node).
Qed.

Lemma indexed_children_resolve `{Collator} xmlDoc data k node c :
  indexed xmlDoc data ->
  JsMap.get (classMap data) k = Some node -> c ∈ children node ->
  exists cn, JsMap.get (classMap data) c = Some cn /\ id cn = c /\ k ∈ parents cn.
Proof.
  intros Hidx Hk Hc. rewrite (indexed_get _ _ Hidx) in Hk.
  destruct (last (declarationsOf k _)) as [cls|]; simplify_eq/=.
  apply elem_of_childrenIn in Hc.
  assert (is_Some (JsMap.get (classMap data) c)) as [cn Hcn].
  { apply JsMap_get_Some_keys. rewrite (indexed_keys _ _ Hidx).
    apply firstOccurrences_elem_of. by eapply edge_child_declared. }
  exists cn. split; [done|]. rewrite (indexed_get _ _ Hidx) in Hcn.
  destruct (last (declarationsOf c _)) as [ccls|]; simplify_eq/=.
  split; [done|]. by apply elem_of_parentsIn.
Qed.

Lemma List_filter_sublist {A} (f : A -> bool) l : List.filter f l `sublist_of` l.
Proof.
  induction l as [|x l IH]; simpl; [done|].
  destruct (f x); by constructor.
Qed.

Lemma indexed_roots_sublist `{Collator} xmlDoc data :
  indexed xmlDoc data ->
  exists l, roots data ≡ₚ l /\ l `sublist_of` JsMap.values (classMap data).
Proof.
  intros Hidx. rewrite (indexed_roots _ _ Hidx). simpl.
  eexists. split; [apply sort_Permutation|].
  destruct (0 <? _)%nat; [apply List_filter_sublist|apply sublist_take].
Qed.

Lemma omap_resolved {A} (get : string -> option A) (key : A -> string)
  (l : list string) :
  (forall c, c ∈ l -> exists x, get c = Some x /\ key x = c) ->
  key <$> omap get l = l.
Proof.
  induction l as [|c l IH]; intros Hl; [done|]. simpl.
  destruct (Hl c) as (x & -> & Hx); [left|]. simpl. f_equal; [done|].
  apply IH. intros c' Hc'. apply Hl. by right.
Qed.

Lemma orElse_nonempty a d : isEmpty d = false -> isEmpty (orElse a d) = false.
Proof. intros Hd. unfold orElse. destruct a as [s|]; [|done]. by destruct (isEmpty s) eqn:E. Qed.

(** X1: no child dangles.  In the index of every document, every
    identifier in a [children] field is itself a key of [classMap], and its
    entry names the class among its parents. *)
Theorem children_resolve `{Collator} (xmlDoc : Document) :
  exists data, indexDocument xmlDoc = Some data /\
    forall k node c,
      JsMap.get (classMap data) k = Some node -> c ∈ children node ->
      exists cn, JsMap.get (classMap data) c = Some cn /\ k ∈ parents cn.
Proof.
  destruct (indexDocument_indexed xmlDoc) as (data & Hdata & Hidx).
  exists data. split; [done|]. intros k node c Hk Hc.
  destruct (indexed_children_resolve _ _ _ _ _ Hidx Hk Hc) as (cn & ? & _ & ?).
  eauto.
Qed.

Lemma children_resolve_witness :
  exists cn,
    JsMap.get
      [("A", {| id := "A"; label := "Bravo"; description := "";
                children := ["B"; "C"]; parents := [] |});
       ("B", {| id := "B"; label := "Charlie"; description := "";
                children := []; parents := ["A"] |});
       ("C", {| id := "C"; label := "Alpha"; description := "";
                children := []; parents := ["A"] |})] "C" = Some cn /\
    "A" ∈ parents cn.
Proof.
  destruct (@children_resolve codeCollator treeDoc) as (data & Hdata & Hres).
  vm_compute in Hdata. injection Hdata as <-.
  eapply Hres; [reflexivity|]. apply list_elem_of_In. simpl. tauto.
Defined.

(** X2: every entry of the index is stored under its own identifier, and
    neither its identifier nor its label is the empty string. *)
Theorem entries_keyed_and_labelled `{Collator} (xmlDoc : Document) :
  exists data, indexDocument xmlDoc = Some data /\
    forall k node, (k, node) ∈ classMap data ->
      JsMap.get (classMap data) k = Some node /\
      id node = k /\ k <> "" /\ label node <> "".
Proof.
  destruct (indexDocument_indexed xmlDoc) as (data & Hdata & Hidx).
  exists data. split; [done|]. intros k node Hin.
  destruct (indexed_wellKeyed _ _ Hidx) as [Hnd Hid].
  pose proof (JsMap_elem_of_get _ _ _ Hnd Hin) as Hget.
  assert (Hk : isEmpty k = false).
  { apply (declarations_nonempty xmlDoc), firstOccurrences_elem_of.
    rewrite <- (indexed_keys _ _ Hidx). apply JsMap_get_Some_keys. by rewrite Hget. }
  split_and!; [done|by apply Hid|by intros ->|].
  pose proof Hget as Hget'. rewrite (indexed_get _ _ Hidx) in Hget'.
  destruct (last _) as [cls|]; simplify_eq/=.
  intros Hl. pose proof (orElse_nonempty (jsOr (firstText cls "rdfs:label") (lastSegment k)) k Hk) as Hne.
  unfold classLabel in Hl. by rewrite Hl in Hne.
Qed.

Lemma entries_keyed_and_labelled_witness :
  label {| id := "http://ex.org/foo/"; label := "http://ex.org/foo/";
           description := ""; children := []; parents := [] |} <> "".
Proof.
  destruct (@entries_keyed_and_labelled codeCollator trailingSlashDoc)
    as (data & Hdata & Hentries).
  vm_compute in Hdata. injection Hdata as <-.
  eapply Hentries. left.
Defined.

Lemma wellKeyed_ids data :
  wellKeyed data -> id <$> JsMap.values (classMap data) = JsMap.keys (classMap data).
Proof.
  intros [_ Hid]. unfold JsMap.values, JsMap.keys.
  induction (classMap data) as [|[k node] m IH]; [done|]. simpl.
  rewrite (Hid k node); [|left]. f_equal. apply IH.
  intros k' node' Hin. apply Hid. by right.
Qed.

Lemma omap_length_le {A B} (f : A -> option B) l : length (omap f l) <= length l.
Proof.
  induction l as [|x l IH]; [done|].
  change (omap f (x :: l)) with (match f x with Some y => y :: omap f l | None => omap f l end).
  destruct (f x); simpl; lia.
Qed.

Lemma indexed_resolved_children `{Collator} xmlDoc data node :
  indexed xmlDoc data -> node ∈ JsMap.values (classMap data) ->
  id <$> omap (JsMap.get (classMap data)) (children node) = children node.
Proof.
  intros Hidx Hnode. apply omap_resolved. intros c Hc.
  destruct (wellKeyed_values _ _ (indexed_wellKeyed _ _ Hidx) Hnode) as [Hget _].
  destruct (indexed_children_resolve _ _ _ _ _ Hidx Hget Hc) as (cn & ? & ? & _).
  eauto.
Qed.

(** X3: every root is an entry of [classMap], found under its own
    identifier; no two roots have the same identifier; and there are no
    more roots than entries. *)
Theorem roots_are_entries `{Collator} (xmlDoc : Document) :
  exists data, indexDocument xmlDoc = Some data /\
    (forall r, r ∈ roots data -> JsMap.get (classMap data) (id r) = Some r) /\
    NoDup (id <$> roots data) /\
    length (roots data) <= length (classMap data).
Proof.
  destruct (indexDocument_indexed xmlDoc) as (data & Hdata & Hidx).
  exists data. split; [done|].
  pose proof (indexed_wellKeyed _ _ Hidx) as Hwk.
  destruct (indexed_roots_sublist _ _ Hidx) as (l & Hperm & Hsub).
  split_and!.
  - intros r Hr. apply wellKeyed_values; [done|].
    eapply elem_of_sublist; [|done]. by rewrite <- Hperm.
  - rewrite Hperm.
    apply (sublist_NoDup _ (id <$> JsMap.values (classMap data)));
      [|by apply fmap_sublist].
    rewrite wellKeyed_ids by done. apply Hwk.
  - rewrite Hperm. apply sublist_length in Hsub.
    unfold JsMap.values in Hsub. by rewrite length_map in Hsub.
Qed.

Lemma roots_are_entries_witness :
  JsMap.get
    [("A", {| id := "A"; label := "Bravo"; description := "";
              children := ["B"; "C"]; parents := [] |});
     ("B", {| id := "B"; label := "Charlie"; description := "";
              children := []; parents := ["A"] |});
     ("C", {| id := "C"; label := "Alpha"; description := "";
              children := []; parents := ["A"] |})] "A"
  = Some {| id := "A"; label := "Bravo"; description := "";
            children := ["B"; "C"]; parents := [] |}.
Proof.
  destruct (@roots_are_entries codeCollator treeDoc) as (data & Hdata & Hroots & _).
  vm_compute in Hdata. injection Hdata as <-.
  apply (Hroots {| id := "A"; label := "Bravo"; description := "";
                   children := ["B"; "C"]; parents := [] |}). left.
Defined.

(** X4: on a parsed index [getChildNodes] leaves no child out: the
    identifiers of the nodes it returns are the [children] of the entry,
    reordered, so the count shown beside a row is the number of rows that
    expanding it adds. *)
Theorem getChildNodes_complete `{Collator} (xmlDoc : Document) :
  exists data, indexDocument xmlDoc = Some data /\
    forall k node, JsMap.get (classMap data) k = Some node ->
      id <$> getChildNodes (Some data) k ≡ₚ children node /\
      length (getChildNodes (Some data) k) = length (children node).
Proof.
  destruct (indexDocument_indexed xmlDoc) as (data & Hdata & Hidx).
  exists data. split; [done|]. intros k node Hk.
  assert (Hperm : id <$> getChildNodes (Some data) k ≡ₚ children node).
  { simpl. rewrite Hk, sort_Permutation.
    rewrite (indexed_resolved_children xmlDoc); [done..|].
    by eapply wellKeyed_get; [eapply indexed_wellKeyed|]. }
  split; [done|]. by rewrite <- Hperm, length_fmap.
Qed.

Lemma getChildNodes_complete_witness :
  length
    (@getChildNodes codeCollator
       (Some {| classMap :=
                  [("A", {| id := "A"; label := "Bravo"; description := "";
                            children := ["B"; "C"]; parents := [] |});
                   ("B", {| id := "B"; label := "Charlie"; description := "";
                            children := []; parents := ["A"] |});
                   ("C", {| id := "C"; label := "Alpha"; description := "";
                            children := []; parents := ["A"] |})];
                roots :=
                  [{| id := "A"; label := "Bravo"; description := "";
                      children := ["B"; "C"]; parents := [] |}] |}) "A")
  = length ["B"; "C"].
Proof.
  destruct (@getChildNodes_complete codeCollator treeDoc) as (data & Hdata & Hall).
  vm_compute in Hdata. injection Hdata as <-.
  apply (Hall "A" {| id := "A"; label := "Bravo"; description := "";
                     children := ["B"; "C"]; parents := [] |}). reflexivity.
Defined.

(** X5: in the details panel of a class of a parsed index, the child
    buttons together with the "+N more children" note account for every
    child; the parent buttons can be fewer than the parents counted in the
    heading, because a parent need not be declared. *)
Theorem details_panel_counts `{Collator} (xmlDoc : Document) :
  exists data, indexDocument xmlDoc = Some data /\
    forall sel, sel ∈ JsMap.values (classMap data) ->
      length (childButtons data sel) = length (children sel) `min` 10 /\
      length (childButtons data sel) + default 0 (moreChildren sel)
        = length (children sel) /\
      length (parentButtons data sel) <= length (parents sel).
Proof.
  destruct (indexDocument_indexed xmlDoc) as (data & Hdata & Hidx).
  exists data. split; [done|]. intros sel Hsel.
  assert (Hlen : length (sort byLabel (omap (JsMap.get (classMap data)) (children sel)))
                 = length (children sel)).
  { rewrite (Permutation_length (sort_Permutation _ _)).
    rewrite <- (indexed_resolved_children xmlDoc data sel) at 2 by done.
    by rewrite length_fmap. }
  assert (Hchild : length (childButtons data sel) = length (children sel) `min` 10).
  { unfold childButtons. destruct (Nat.ltb_spec 0 (length (children sel))).
    - rewrite length_take, Hlen. lia.
    - simpl. lia. }
  split_and!; [done| |].
  - rewrite Hchild. unfold moreChildren.
    destruct (Nat.ltb_spec 10 (length (children sel))); simpl; lia.
  - unfold parentButtons. destruct (0 <? length (parents sel))%nat; simpl; [|lia].
    rewrite (Permutation_length (sort_Permutation _ _)). apply omap_length_le.
Qed.

Lemma details_panel_counts_witness :
  length
    (@parentButtons codeCollator
       {| classMap :=
            [("A", {| id := "A"; label := "Second"; description := "";
                      children := []; parents := ["P"; "Q"] |});
             ("P", {| id := "P"; label := "P"; description := "";
                      children := ["A"]; parents := [] |})];
          roots :=
            [{| id := "P"; label := "P"; description := "";
                children := ["A"]; parents := [] |}] |}
       {| id := "A"; label := "Second"; description := "";
          children := []; parents := ["P"; "Q"] |})
  <= length ["P"; "Q"].
Proof.
  destruct (@details_panel_counts codeCollator redeclaredDoc) as (data & Hdata & Hcounts).
  vm_compute in Hdata. injection Hdata as <-.
  apply (Hcounts {| id := "A"; label := "Second"; description := "";
                    children := []; parents := ["P"; "Q"] |}). left.
Defined.

(** ** The handlers *)

(** X6: toggling a node twice gives the state back; one toggle flips
    whether that node is expanded and leaves every other node as it was. *)
Theorem toggleNode_flips (nodeId : string) (st : State) :
  toggleNode nodeId (toggleNode nodeId st) = st /\
  (nodeId ∈ expandedNodes (toggleNode nodeId st) <-> nodeId ∉ expandedNodes st) /\
  (forall k, k <> nodeId ->
     (k ∈ expandedNodes (toggleNode nodeId st) <-> k ∈ expandedNodes st)).
Proof.
  destruct st as [od term sel expanded rs]. unfold toggleNode, setExpandedNodes. simpl.
  split_and!.
  - f_equal. destruct (decide (nodeId ∈ expanded)) as [Hin|Hin].
    + rewrite (bool_decide_eq_true_2 _ Hin).
      rewrite bool_decide_eq_false_2 by (rewrite elem_of_difference, elem_of_singleton; tauto).
      apply set_eq. intros x.
      rewrite elem_of_union, elem_of_difference, elem_of_singleton.
      destruct (decide (x = nodeId)) as [->|]; tauto.
    + rewrite (bool_decide_eq_false_2 _ Hin).
      rewrite bool_decide_eq_true_2 by (rewrite elem_of_union, elem_of_singleton; tauto).
      apply set_eq. intros x.
      rewrite elem_of_difference, elem_of_union, elem_of_singleton.
      destruct (decide (x = nodeId)) as [->|]; tauto.
  - destruct (decide (nodeId ∈ expanded)) as [Hin|Hin].
    + rewrite (bool_decide_eq_true_2 _ Hin), elem_of_difference, elem_of_singleton. tauto.
    + rewrite (bool_decide_eq_false_2 _ Hin), elem_of_union, elem_of_singleton. tauto.
  - intros k Hk. destruct (decide (nodeId ∈ expanded)) as [Hin|Hin].
    + rewrite (bool_decide_eq_true_2 _ Hin), elem_of_difference, elem_of_singleton. tauto.
    + rewrite (bool_decide_eq_false_2 _ Hin), elem_of_union, elem_of_singleton. tauto.
Qed.

Lemma expandAll_fold (m : JsMap.t OntologyClass) (acc : gset string) k :
  k ∈ foldl (fun (acc : gset string) '(k, node) =>
               if hasChildren node then acc ∪ {[k]} else acc) acc m
  <-> k ∈ acc \/ exists node, (k, node) ∈ m /\ hasChildren node = true.
Proof.
  revert acc. induction m as [|[k' node'] m IH]; intros acc; simpl.
  - split; [by left|]. intros [?|(n & Hn & _)]; [done|]. by apply elem_of_nil in Hn.
  - rewrite IH. split.
    + intros [Hacc|(node & Hin & Hc)].
      * destruct (hasChildren node') eqn:E; [|by left].
        apply elem_of_union in Hacc as [?|Hk]; [by left|].
        apply elem_of_singleton in Hk as ->.
        right. exists node'. split; [left|done].
      * right. exists node. split; [by right|done].
    + intros [Hacc|(node & [[= -> ->]|Hin]%elem_of_cons & Hc)].
      * left. destruct (hasChildren node'); [|done]. apply elem_of_union. by left.
      * left. rewrite Hc. apply elem_of_union. right. by apply elem_of_singleton.
      * right. eauto.
Qed.

(** X7: after "Expand All" the expanded identifiers are the keys of the
    entries that list at least one child, whatever was expanded before. *)
Theorem expandAll_expands_parents (st : State) (data : OntologyData) :
  ontologyData st = Some data ->
  forall k, k ∈ expandedNodes (expandAll st) <->
            exists node, (k, node) ∈ classMap data /\ children node <> [].
Proof.
  intros Hdata k. unfold expandAll. rewrite Hdata. simpl.
  rewrite expandAll_fold. split.
  - intros [Hempty|(node & Hin & Hc)]; [by apply elem_of_empty in Hempty|].
    exists node. split; [done|]. unfold hasChildren in Hc. by destruct (children node).
  - intros (node & Hin & Hc). right. exists node. split; [done|].
    unfold hasChildren. by destruct (children node).
Qed.

Lemma expandAll_expands_parents_witness :
  "A" ∈ expandedNodes
    (expandAll
       {| ontologyData :=
            Some {| classMap :=
                      [("A", {| id := "A"; label := "Bravo"; description := "";
                                children := ["B"]; parents := [] |});
                       ("B", {| id := "B"; label := "Charlie"; description := "";
                                children := []; parents := ["A"] |})];
                    roots := [] |};
          searchTerm := ""; selectedNode := None;
          expandedNodes := {["B"; "gone"]}; rootNodes := [] |}).
Proof.
  eapply expandAll_expands_parents; [reflexivity|].
  eexists. split; [left|]. done.
Defined.

(** ** The states the user can reach *)

Lemma getChildNodes_entries `{Collator} data k child :
  child ∈ getChildNodes (Some data) k -> child ∈ JsMap.values (classMap data).
Proof.
  simpl. destruct (JsMap.get (classMap data) k) as [node|]; [|by intros ?%elem_of_nil].
  rewrite sort_Permutation. intros (c & _ & Hc)%list_elem_of_omap.
  apply JsMap_get_elem_of in Hc. apply list_elem_of_fmap. by exists (c, child).
Qed.

Lemma hasRow_entry `{Collator} st node :
  consistent st -> hasRow st node ->
  exists data, ontologyData st = Some data /\ node ∈ JsMap.values (classMap data).
Proof.
  unfold consistent. intros Hst. induction 1 as [node Hroot|node child _ IH _ _ Hchild].
  - destruct (ontologyData st) as [data|].
    + destruct Hst as (_ & Hroots & Hentries & _). exists data. split; [done|].
      apply Hentries. by rewrite <- Hroots.
    + destruct Hst as (_ & _ & Hroots). rewrite Hroots in Hroot.
      by apply elem_of_nil in Hroot.
  - destruct IH as (data & Hdata & _). exists data. split; [done|].
    rewrite Hdata in Hchild. by eapply getChildNodes_entries.
Qed.

Lemma consistent_select_expand st data sel k :
  ontologyData st = Some data -> consistent st ->
  sel ∈ JsMap.values (classMap data) ->
  k ∈ JsMap.keys (classMap data) ->
  consistent (setExpandedNodes (expandedNodes st ∪ {[k]}) (setSelectedNode (Some sel) st)).
Proof.
  unfold consistent. simpl. intros -> (Hwk & Hroots & Hentries & _ & Hexp) Hsel Hk.
  split_and!; try done.
  - by intros ? [= <-].
  - intros k' [?| ->%elem_of_singleton]%elem_of_union; auto.
Qed.

Lemma step_consistent `{DOMParser} `{Collator} st st' :
  step st st' -> consistent st -> consistent st'.
Proof.
  destruct 1 as [uploaded st st' Hup|term st|st|st|node st Hrow
                |data sel parent st Hdata Hsel Hparent
                |data sel child st Hdata Hsel Hchild]; intros Hst.
  - destruct uploaded as [text|]; simpl in Hup; [|by simplify_eq].
    rewrite parseOWL_indexDocument in Hup.
    destruct (indexDocument_indexed (parseFromString text)) as (data & Hd & Hidx).
    rewrite Hd in Hup. simpl in Hup. injection Hup as <-.
    unfold consistent. simpl. split_and!; try done.
    + by eapply indexed_wellKeyed.
    + intros r Hr. destruct (indexed_roots_sublist _ _ Hidx) as (l & Hperm & Hsub).
      eapply elem_of_sublist; [|done]. by rewrite <- Hperm.
  - done.
  - unfold expandAll, consistent in *. destruct (ontologyData st) as [data|] eqn:Hdata; simpl.
    + rewrite Hdata. destruct Hst as (Hwk & Hroots & Hentries & Hsel & _).
      split_and!; try done. intros k [Hk|(node & Hin & _)]%expandAll_fold.
      * by apply elem_of_empty in Hk.
      * apply list_elem_of_fmap. by exists (k, node).
    + by rewrite Hdata.
  - unfold collapseAll, consistent in *. simpl.
    destruct (ontologyData st).
    + destruct Hst as (? & ? & ? & ? & _). by split_and!.
    + by destruct Hst as (? & _ & ?).
  - destruct (hasRow_entry _ _ Hst Hrow) as (data & Hdata & Hnode).
    assert (Hwk : wellKeyed data).
    { unfold consistent in Hst. rewrite Hdata in Hst. apply Hst. }
    destruct (wellKeyed_values _ _ Hwk Hnode) as [_ Hkey].
    assert (Hsel : consistent (setSelectedNode (Some node) st)).
    { unfold consistent in *. simpl. rewrite Hdata in *.
      destruct Hst as (? & ? & ? & _ & ?). split_and!; try done. by intros ? [= <-]. }
    unfold clickRow. destruct (hasChildren node); [|done].
    unfold toggleNode, consistent in *; simpl in *. rewrite Hdata in *.
    destruct Hsel as (? & ? & ? & ? & Hexp). split_and!; try done.
    intros k. case_bool_decide.
    + intros [? _]%elem_of_difference. auto.
    + intros [?| ->%elem_of_singleton]%elem_of_union; auto.
  - assert (Hin : parent ∈ JsMap.values (classMap data)).
    { unfold parentButtons in Hparent. destruct (0 <? _)%nat; [|by apply elem_of_nil in Hparent].
      rewrite sort_Permutation in Hparent.
      apply list_elem_of_omap in Hparent as (p & _ & Hp).
      apply JsMap_get_elem_of in Hp. apply list_elem_of_fmap. by exists (p, parent). }
    apply (consistent_select_expand st data); [done..|].
    apply wellKeyed_values; [|done]. unfold consistent in Hst. rewrite Hdata in Hst. apply Hst.
  - assert (Hin : child ∈ JsMap.values (classMap data)).
    { unfold childButtons in Hchild. destruct (0 <? _)%nat; [|by apply elem_of_nil in Hchild].
      apply elem_of_take in Hchild as (i & Hchild & _).
      apply list_elem_of_lookup_2 in Hchild. rewrite sort_Permutation in Hchild.
      apply list_elem_of_omap in Hchild as (c & _ & Hc).
      apply JsMap_get_elem_of in Hc. apply list_elem_of_fmap. by exists (c, child). }
    apply (consistent_select_expand st data); [done..|].
    unfold consistent in Hst. rewrite Hdata in Hst.
    destruct Hst as (Hwk & _ & _ & Hselected & _).
    apply wellKeyed_values; [done|]. by apply Hselected.
Qed.

(** X8: whatever the user does (upload files, search, expand, collapse,
    click rows and buttons), the selected node is an entry of the loaded
    index, every expanded identifier is one of its keys, so that the
    "Expanded" count never exceeds "Total Classes", and the roots shown are
    those of the loaded index. *)
Theorem reachable_consistent `{DOMParser} `{Collator} (st : State) :
  rtc step initialState st ->
  consistent st /\
  (forall data, ontologyData st = Some data ->
     size (expandedNodes st) <= totalClasses data /\
     rootNodes st = roots data /\
     forall sel, selectedNode st = Some sel ->
       JsMap.get (classMap data) (id sel) = Some sel).
Proof.
  intros Hreach.
  assert (Hst : consistent st).
  { apply (rtc_ind_r (R:=step) (fun st => consistent st) initialState); [done| |done].
    intros y z _ Hstep Hy. by eapply step_consistent. }
  split; [done|]. intros data Hdata. unfold consistent in Hst. rewrite Hdata in Hst.
  destruct Hst as ([Hnd Hid] & Hroots & _ & Hsel & Hexp). split_and!; [|done|].
  - unfold totalClasses.
    replace (length (classMap data)) with (length (JsMap.keys (classMap data)))
      by (unfold JsMap.keys; apply length_map).
    rewrite <- (size_list_to_set (C:=gset string)) by done.
    apply subseteq_size. intros k Hk. apply elem_of_list_to_set. auto.
  - intros sel Hs. by apply wellKeyed_values, Hsel.
Qed.

Lemma reachable_consistent_witness :
  size (expandedNodes
          (clickRow {| id := "A"; label := "Bravo"; description := "";
                       children := ["B"; "C"]; parents := [] |}
             (setSelectedNode None
               (setExpandedNodes ∅
                 (setRootNodes
                    [{| id := "A"; label := "Bravo"; description := "";
                        children := ["B"; "C"]; parents := [] |}]
                    (setOntologyData
                       (Some {| classMap :=
                                  [("A", {| id := "A"; label := "Bravo"; description := "";
                                            children := ["B"; "C"]; parents := [] |});
                                   ("B", {| id := "B"; label := "Charlie"; description := "";
                                            children := []; parents := ["A"] |});
                                   ("C", {| id := "C"; label := "Alpha"; description := "";
                                            children := []; parents := ["A"] |})];
                                roots :=
                                  [{| id := "A"; label := "Bravo"; description := "";
                                      children := ["B"; "C"]; parents := [] |}] |})
                       initialState))))))
  <= 3.
Proof.
  match goal with |- size (expandedNodes ?s) <= _ =>
    destruct (@reachable_consistent (parserAnswering treeDoc) codeCollator s) as [_ Hst]
  end.
  - eapply rtc_l; [apply (step_upload (Some "")); reflexivity|].
    eapply rtc_l; [|apply rtc_refl]. apply step_row, hasRow_root. left.
  - destruct (Hst _ eq_refl) as [Hsize _]. exact Hsize.
Defined.

(** ** Rendering the tree *)

Lemma renderTreeNode_unfold `{Collator} `{CaseFolding} fuel st node depth :
  renderTreeNode (S fuel) st node depth =
  let row :=
    {| row_key := id node;
       row_label := label node;
       row_paddingLeft := depth * 24 + 12;
       row_isSelected :=
         match selectedNode st with
         | Some sel => String.eqb (id sel) (id node)
         | None => false
         end;
       row_isExpanded := bool_decide (id node ∈ expandedNodes st);
       row_hasChildren := hasChildren node;
       row_matchesSearch :=
         negb (isEmpty (searchTerm st))
         && includes (toLowerCase (label node)) (toLowerCase (searchTerm st));
       row_count := length (children node) |} in
  if bool_decide (id node ∈ expandedNodes st) && hasChildren node then
    kids ← mapM (fun child => renderTreeNode fuel st child (depth + 1))
                (getChildNodes (ontologyData st) (id node));
    Some (treeElement row (Some kids))
  else Some (treeElement row None).
Proof. done. Qed.

(** X9: the rendering of a node never returns when it meets a set of
    expanded nodes each of which has a child in the set, that is, an
    expanded cycle: every level of the recursion renders the next node of
    the cycle. *)
Theorem renderTreeNode_expanded_cycle `{Collator} `{CaseFolding} (st : State)
  (data : OntologyData) (cyc : OntologyClass -> Prop) :
  ontologyData st = Some data ->
  (forall n, cyc n ->
     id n ∈ expandedNodes st /\ hasChildren n = true /\
     exists entry c child,
       JsMap.get (classMap data) (id n) = Some entry /\ c ∈ children entry /\
       JsMap.get (classMap data) c = Some child /\ cyc child) ->
  forall n, cyc n ->
  forall fuel depth, renderTreeNode fuel st n depth = None.
Proof.
  intros Hdata Hcyc n Hn fuel. revert n Hn.
  induction fuel as [|fuel IH]; intros n Hn depth; [done|].
  rewrite renderTreeNode_unfold. cbv zeta.
  destruct (Hcyc n Hn) as (Hexp & Hkids & entry & c & child & Hentry & Hc & Hchild & Hnext).
  rewrite (bool_decide_eq_true_2 _ Hexp), Hkids. simpl.
  destruct (mapM _ _) as [kids|] eqn:Hmap; [|done]. exfalso.
  apply mapM_Some_1 in Hmap.
  assert (Hin : child ∈ getChildNodes (ontologyData st) (id n)).
  { rewrite Hdata. simpl. rewrite Hentry, sort_Permutation.
    apply list_elem_of_omap. eauto. }
  apply list_elem_of_lookup in Hin as [i Hi].
  destruct (Forall2_lookup_l _ _ _ _ _ Hmap Hi) as (el & _ & Hel).
  by rewrite (IH child Hnext) in Hel.
Qed.

Lemma renderTreeNode_expanded_cycle_witness :
  @renderTreeNode codeCollator asciiFolding 5
    {| ontologyData :=
         Some {| classMap :=
                   [("A", {| id := "A"; label := "Alpha"; description := "";
                             children := ["B"]; parents := ["B"] |});
                    ("B", {| id := "B"; label := "Bravo"; description := "";
                             children := ["A"]; parents := ["A"] |})];
                 roots := [] |};
       searchTerm := ""; selectedNode := None;
       expandedNodes := {["A"; "B"]}; rootNodes := [] |}
    {| id := "A"; label := "Alpha"; description := "";
       children := ["B"]; parents := ["B"] |} 0 = None.
Proof.
  eapply (@renderTreeNode_expanded_cycle codeCollator asciiFolding _ _
            (fun n => n = {| id := "A"; label := "Alpha"; description := "";
                             children := ["B"]; parents := ["B"] |}
                      \/ n = {| id := "B"; label := "Bravo"; description := "";
                                children := ["A"]; parents := ["A"] |}));
    [reflexivity| |by left].
  intros n [->| ->]; (split_and!; [set_solver|done|]).
  - eexists _, "B", _. split_and!; [reflexivity|by left|reflexivity|by right].
  - eexists _, "A", _. split_and!; [reflexivity|by left|reflexivity|by left].
Defined.

Lemma renderTreeNode_returns_on_path `{Collator} `{CaseFolding} st data fuel : forall n depth path,
  ontologyData st = Some data -> wellKeyed data ->
  NoDup path ->
  (forall p, p ∈ path -> exists c, childEdge (Some data) p c /\ reaches (Some data) c (id n)) ->
  acyclicBelow (Some data) (id n) ->
  length (JsMap.keys (classMap data)) < length path + fuel ->
  is_Some (renderTreeNode fuel st n depth).
Proof.
  induction fuel as [|fuel IH]; intros n depth path Hdata Hwk Hnd Hpath Hacyclic Hlen.
  - exfalso. assert (length path <= length (JsMap.keys (classMap data))); [|lia].
    apply submseteq_length, NoDup_submseteq; [done|].
    intros p (c & (node & Hp & _) & _)%Hpath.
    apply JsMap_get_Some_keys. simpl in Hp. by rewrite Hp.
  - rewrite renderTreeNode_unfold. cbv zeta.
    destruct (bool_decide _ && hasChildren n); [|done].
    assert (Hkids : is_Some (mapM (fun child => renderTreeNode fuel st child (depth + 1))
                                  (getChildNodes (ontologyData st) (id n)))).
    { apply mapM_is_Some, Forall_forall. intros child Hchild.
      rewrite Hdata in Hchild. simpl in Hchild.
      destruct (JsMap.get (classMap data) (id n)) as [entry|] eqn:Hentry;
        [|by apply elem_of_nil in Hchild].
      rewrite sort_Permutation in Hchild.
      apply list_elem_of_omap in Hchild as (c & Hc & Hget).
      destruct (wellKeyed_get _ _ _ Hwk Hget) as [Hid _].
      assert (Hedge : childEdge (Some data) (id n) c) by by exists entry.
      simpl. apply (IH child (depth + 1) (id n :: path)); try done.
      - apply NoDup_cons. split; [|done].
        intros Hin. apply (Hacyclic (id n)); [constructor|]. by apply Hpath.
      - rewrite Hid. intros p [->|Hp]%elem_of_cons.
        + exists c. split; [done|constructor].
        + destruct (Hpath p Hp) as (c' & Hpc & Hreach). exists c'. split; [done|].
          eapply reaches_trans; [done|]. eapply reaches_child; [done|constructor].
      - rewrite Hid. intros k' Hreach. apply Hacyclic. by eapply reaches_child.
      - simpl. lia. }
    by destruct Hkids as [kids ->].
Qed.

(** X10: the rendering of a node returns when no cycle of children edges
    can be reached from it, however many nodes are expanded; a recursion
    depth of one more than the number of entries is enough. *)
Theorem renderTreeNode_returns `{Collator} `{CaseFolding} (st : State) (data : OntologyData)
  (node : OntologyClass) (depth : nat) :
  ontologyData st = Some data -> wellKeyed data ->
  acyclicBelow (Some data) (id node) ->
  exists element,
    renderTreeNode (S (length (classMap data))) st node depth = Some element.
Proof.
  intros Hdata Hwk Hacyclic.
  apply (renderTreeNode_returns_on_path st data _ node depth []); try done.
  - apply NoDup_nil_2.
  - by intros ? ?%elem_of_nil.
  - unfold JsMap.keys. rewrite length_map. simpl. lia.
Qed.

Lemma wellKeyed_check data :
  bool_decide (NoDup (JsMap.keys (classMap data)))
  && forallb (fun '(k, node) => String.eqb (id node) k) (classMap data) = true ->
  wellKeyed data.
Proof.
  intros [Hnd Hids]%andb_true_iff. split; [by apply bool_decide_eq_true in Hnd|].
  intros k node Hin%list_elem_of_In. rewrite forallb_forall in Hids.
  by apply Hids, String.eqb_eq in Hin.
Qed.

Lemma renderTreeNode_returns_witness :
  exists element,
    @renderTreeNode codeCollator asciiFolding 4
      {| ontologyData := Some treeIndex;
         searchTerm := "alp"; selectedNode := None;
         expandedNodes := {["A"; "B"; "C"]}; rootNodes := roots treeIndex |}
      {| id := "A"; label := "Bravo"; description := "";
         children := ["B"; "C"]; parents := [] |} 0 = Some element.
Proof.
  apply (@renderTreeNode_returns codeCollator asciiFolding _ treeIndex _ 0);
    [reflexivity| |].
  - apply wellKeyed_check. vm_compute. reflexivity.
  - apply (ranked_acyclicBelow (fun k => if String.eqb k "A" then 1 else 0)).
    reflexivity.
Defined.

(** ** The roots under a search term *)

Lemma filterM_sublist {A} (f : A -> option bool) l kept :
  filterM f l = Some kept -> kept `sublist_of` l.
Proof.
  revert kept. induction l as [|x l IH]; simpl; intros kept.
  - by intros [= <-].
  - destruct (f x) as [b|]; simpl; [|done].
    destruct (filterM f l) as [r|]; simpl; [|done].
    intros [= <-]. destruct b; constructor; auto.
Qed.

Lemma filterM_returns {A} (f : A -> option bool) l :
  (forall x, x ∈ l -> is_Some (f x)) -> is_Some (filterM f l).
Proof.
  induction l as [|x l IH]; simpl; intros Hf; [done|].
  destruct (Hf x) as [b ->]; [left|]. simpl.
  destruct IH as [r ->]; [|done]. intros y Hy. apply Hf. by right.
Qed.

(** X11: the roots that stay in the tree under a search term are, in
    their order, the roots whose own label or a label below them contains
    the term; with an empty search box they are all the roots. *)
Theorem filteredRootNodes_shows `{CaseFolding} (fuel : nat) (od : option OntologyData)
  (rootNodes : list OntologyClass) (term : string) (kept : list OntologyClass) :
  filteredRootNodes fuel od rootNodes term = Some kept ->
  kept `sublist_of` rootNodes /\
  (term = "" -> kept = rootNodes) /\
  (term <> "" ->
   forall r, r ∈ kept <->
             r ∈ rootNodes /\
             (caseInsensitiveSubstring term (label r) \/ matchBelow od (id r) term)).
Proof.
  intros Hkept. destruct (filteredRootNodes_kept _ _ _ _ _ Hkept) as [Hempty Hterm].
  split_and!.
  - unfold filteredRootNodes in Hkept. destruct (isEmpty term).
    + by injection Hkept as <-.
    + by eapply filterM_sublist.
  - intros ->. by apply Hempty.
  - intros Hne. apply Hterm. by destruct term.
Qed.

Lemma filteredRootNodes_shows_witness :
  [{| id := "A"; label := "Bravo"; description := "";
      children := ["C"]; parents := [] |}]
  `sublist_of`
  [{| id := "A"; label := "Bravo"; description := "";
      children := ["C"]; parents := [] |};
   {| id := "B"; label := "Charlie"; description := "";
      children := []; parents := [] |}].
Proof.
  eapply (@filteredRootNodes_shows asciiFolding 2
            (Some {| classMap :=
                       [("A", {| id := "A"; label := "Bravo"; description := "";
                                 children := ["C"]; parents := [] |});
                        ("B", {| id := "B"; label := "Charlie"; description := "";
                                 children := []; parents := [] |});
                        ("C", {| id := "C"; label := "Alpha"; description := "";
                                 children := []; parents := ["A"] |})];
                     roots := [] |}) _ "ALPHA").
  reflexivity.
Defined.

(** X12: the filter of the roots returns when no cycle of children edges
    can be reached from any root. *)
Theorem filteredRootNodes_returns `{CaseFolding} (od : option OntologyData)
  (rootNodes : list OntologyClass) (term : string) :
  (forall r, r ∈ rootNodes -> acyclicBelow od (id r)) ->
  exists kept,
    filteredRootNodes (S (length (keysOf od))) od rootNodes term = Some kept.
Proof.
  intros Hacyclic. unfold filteredRootNodes. destruct (isEmpty term); [eauto|].
  apply filterM_returns. intros r Hr. destruct (includes _ _); [done|].
  by apply hasMatchingChild_returns, Hacyclic.
Qed.

Lemma filteredRootNodes_returns_witness :
  exists kept,
    @filteredRootNodes asciiFolding 4 (Some treeIndex) (roots treeIndex) "zulu"
    = Some kept.
Proof.
  apply (@filteredRootNodes_returns asciiFolding (Some treeIndex)).
  intros r _. apply (ranked_acyclicBelow (fun k => if String.eqb k "A" then 1 else 0)).
  reflexivity.
Defined.

(** ** Upload and first rendering *)

Lemma indexed_roots_nonempty `{Collator} xmlDoc data :
  indexed xmlDoc data -> classMap data <> [] -> roots data <> [].
Proof.
  intros Hidx Hne Hroots. apply (f_equal length) in Hroots.
  rewrite (indexed_roots _ _ Hidx) in Hroots. simpl in Hroots.
  rewrite (Permutation_length (sort_Permutation _ _)) in Hroots.
  destruct (Nat.ltb_spec 0 (length (List.filter hasNoParents (JsMap.values (classMap data)))));
    [simpl in Hroots; lia|].
  rewrite length_take in Hroots. unfold JsMap.values in Hroots.
  rewrite length_map in Hroots. destruct (classMap data); simpl in *; [done|lia].
Qed.

Lemma mapM_total {A B} (f : A -> option B) (g : A -> B) l :
  (forall x, x ∈ l -> f x = Some (g x)) -> mapM f l = Some (g <$> l).
Proof.
  intros Hf. apply mapM_Some_2. induction l as [|x l IH]; [constructor|].
  constructor; [apply Hf; left|]. apply IH. intros y Hy. apply Hf. by right.
Qed.

(** X13: after a file has been read while the search box is empty, the
    index of the file is loaded, nothing is selected or expanded, and the
    tree shows one collapsed row per root, in the order of [roots]; a file
    without any class shows "No results found" for the empty term. *)
Theorem upload_shows_roots `{DOMParser} `{Collator} `{CaseFolding} (text : string) (st : State) :
  searchTerm st = "" ->
  exists st' data,
    handleFileUpload (Some text) st = Some st' /\
    parseOWL text = Some data /\
    ontologyData st' = Some data /\
    selectedNode st' = None /\ expandedNodes st' = ∅ /\
    (classMap data = [] -> treePane 1 st' = Some (noResultsFound "")) /\
    (classMap data <> [] ->
     roots data <> [] /\
     treePane 1 st' = Some (treeRows (collapsedRoot <$> roots data))).
Proof.
  intros Hterm. unfold handleFileUpload. rewrite parseOWL_indexDocument.
  destruct (indexDocument_indexed (parseFromString text)) as (data & -> & Hidx).
  simpl. eexists _, data. split_and!; try done.
  - intros Hempty. unfold treePane, filteredRootNodes. simpl. rewrite Hterm. simpl.
    destruct (indexed_roots_sublist _ _ Hidx) as (l & Hperm & Hsub).
    apply sublist_length in Hsub. unfold JsMap.values in Hsub.
    rewrite length_map, Hempty, <- (Permutation_length Hperm) in Hsub.
    by destruct (roots data); simpl in *; [|lia].
  - intros Hne. pose proof (indexed_roots_nonempty _ _ Hidx Hne) as Hroots.
    split; [done|]. unfold treePane, filteredRootNodes. simpl. rewrite Hterm. simpl.
    assert ((0 <? length (roots data))%nat = true) as ->
      by by destruct (roots data).
    rewrite (mapM_total _ collapsedRoot); [done|].
    intros node _. unfold collapsedRoot. simpl.
    rewrite bool_decide_eq_false_2 by apply not_elem_of_empty. done.
Qed.

Lemma upload_shows_roots_witness :
  exists st' data,
    @handleFileUpload (parserAnswering treeDoc) codeCollator (Some "") initialState
    = Some st' /\
    @parseOWL (parserAnswering treeDoc) codeCollator "" = Some data /\
    ontologyData st' = Some data /\
    selectedNode st' = None /\ expandedNodes st' = ∅ /\
    (classMap data = [] ->
     @treePane codeCollator asciiFolding 1 st' = Some (noResultsFound "")) /\
    (classMap data <> [] ->
     roots data <> [] /\
     @treePane codeCollator asciiFolding 1 st'
     = Some (treeRows (collapsedRoot <$> roots data))).
Proof.
  apply (@upload_shows_roots (parserAnswering treeDoc) codeCollator asciiFolding
           "" initialState).
  reflexivity.
Defined.

(** ** Class elements inside class elements *)

Lemma Node_ind_nested (P : Node -> Prop) :
  (forall s, P (TextNode s)) ->
  (forall t a kids, Forall P kids -> P (Element t a kids)) ->
  forall n, P n.
Proof.
  intros Htext Helem. fix IH 1. intros [t a kids|s]; [|apply Htext].
  apply Helem. revert kids. fix IHkids 1. intros [|k kids]; constructor.
  - apply IH.
  - apply IHkids.
Qed.

Lemma elementsIn_trans n x y :
  In x (elementsIn n) -> In y (elementsIn x) -> In y (elementsIn n).
Proof.
  revert x y. induction n as [s|t a kids IH] using Node_ind_nested; intros x y; [done|].
  simpl. intros [<-|Hx] Hy; [done|]. right.
  apply in_flat_map in Hx as (kid & Hkid & Hx). apply in_flat_map. exists kid.
  split; [done|]. rewrite Forall_forall in IH.
  eapply IH; [by apply list_elem_of_In|done..].
Qed.

Lemma getElementsByTagName_nested cls inner tag tag' x :
  In inner (getElementsByTagName cls tag) ->
  In x (getElementsByTagName inner tag') ->
  In x (getElementsByTagName cls tag').
Proof.
  destruct cls as [t a kids|s]; [|done]. simpl.
  intros [Hinner _]%filter_In. destruct inner as [t' a' kids'|s']; [|done]. simpl.
  intros [Hx Htag]%filter_In. apply filter_In. split; [|done].
  apply in_flat_map in Hinner as (kid & Hkid & Hinner). apply in_flat_map.
  exists kid. split; [done|]. eapply elementsIn_trans; [done|]. simpl. by right.
Qed.

(** X14: [getElementsByTagName] looks at all descendants, so the subclass
    edges of a class element that is nested inside another class element
    are recorded for the enclosing class as well: every parent named by
    the inner element is a parent of the entry of the outer one. *)
Theorem nested_class_edges_inherited `{Collator} (xmlDoc : Document) :
  exists data, indexDocument xmlDoc = Some data /\
    forall k cls inner p,
      (k, cls) ∈ declarations xmlDoc ->
      inner ∈ getElementsByTagName cls "owl:Class" ->
      p ∈ declaredParents inner ->
      exists node, JsMap.get (classMap data) k = Some node /\ p ∈ parents node.
Proof.
  destruct (indexDocument_indexed xmlDoc) as (data & Hdata & Hidx).
  exists data. split; [done|]. intros k cls inner p Hdecl Hinner Hp.
  assert (Hedge : (k, p) ∈ declaredEdges xmlDoc).
  { apply list_elem_of_In, in_flat_map. exists (k, cls).
    split; [by apply list_elem_of_In|]. unfold edgesOf. simpl. apply in_map.
    apply list_elem_of_In. unfold declaredParents in *.
    apply list_elem_of_omap in Hp as (sub & Hsub & Hres).
    apply list_elem_of_omap. exists sub. split; [|done].
    apply list_elem_of_In. eapply getElementsByTagName_nested; by apply list_elem_of_In. }
  assert (is_Some (JsMap.get (classMap data) k)) as [node Hnode].
  { apply JsMap_get_Some_keys. rewrite (indexed_keys _ _ Hidx).
    apply firstOccurrences_elem_of, list_elem_of_fmap. by exists (k, cls). }
  exists node. split; [done|]. rewrite (indexed_get _ _ Hidx) in Hnode.
  destruct (last _); simplify_eq/=. by apply elem_of_parentsIn.
Qed.

Lemma nested_class_edges_inherited_witness :
  exists node,
    JsMap.get
      [("Outer", {| id := "Outer"; label := "Outer"; description := "";
                    children := []; parents := ["Top"] |});
       ("Inner", {| id := "Inner"; label := "Inner"; description := "";
                    children := []; parents := ["Top"] |})] "Outer" = Some node /\
    "Top" ∈ parents node.
Proof.
  destruct (@nested_class_edges_inherited codeCollator
              (rdfRDF [owlClass "Outer"
                         [Element "rdfs:subClassOf" []
                            [owlClass "Inner" [subClassOf "Top"]]]]))
    as (data & Hdata & Hnested).
  vm_compute in Hdata. injection Hdata as <-.
  apply (Hnested "Outer"
           (owlClass "Outer"
              [Element "rdfs:subClassOf" [] [owlClass "Inner" [subClassOf "Top"]]])
           (owlClass "Inner" [subClassOf "Top"])).
  - apply list_elem_of_In. vm_compute. tauto.
  - apply list_elem_of_In. vm_compute. tauto.
  - apply list_elem_of_In. vm_compute. tauto.
Defined.

(** ** The fallback label is a suffix of the identifier *)

Lemma finalSegment_suffix p s : exists pre, s = pre +:+ finalSegment p s.
Proof.
  induction s as [|c r [pre IH]]; [by exists ""|].
  rewrite finalSegment_cons. destruct (p c || mentions p r).
  - exists (String c pre). change (String c r = String c (pre +:+ finalSegment p r)).
    by rewrite <- IH.
  - by exists "".
Qed.

Lemma finalSegment_plain p s : mentions p (finalSegment p s) = false.
Proof.
  induction s as [|c r IH]; [done|].
  rewrite finalSegment_cons. by destruct (p c || mentions p r) eqn:E.
Qed.

(** X15: the label of an entry whose declaration has no label element is
    a suffix of its identifier: the identifier itself, or a part of it
    that contains neither ['#'] nor ['/']. *)
Theorem fallback_label_suffix `{Collator} (xmlDoc : Document) :
  exists data, indexDocument xmlDoc = Some data /\
    forall k cls,
      last (declarationsOf k (declarations xmlDoc)) = Some cls ->
      getElementsByTagName cls "rdfs:label" = [] ->
      exists node pre,
        JsMap.get (classMap data) k = Some node /\
        k = pre +:+ label node /\
        (label node = k \/ mentions isSeparator (label node) = false).
Proof.
  destruct (indexDocument_indexed xmlDoc) as (data & Hdata & Hidx).
  exists data. split; [done|]. intros k cls Hlast Hnolabel.
  pose proof (indexed_get _ _ Hidx k) as Hk. rewrite Hlast in Hk. simpl in Hk.
  assert (Hlabel : classLabel cls k
                   = if isEmpty (finalSegment isSeparator k) then k
                     else finalSegment isSeparator k).
  { unfold classLabel, firstText. rewrite Hnolabel. simpl.
    rewrite lastSegment_segments. unfold segments. by rewrite last_splitBy. }
  destruct (isEmpty (finalSegment isSeparator k)).
  - exists (entryOf (declaredEdges xmlDoc) k cls), "". simpl. rewrite Hlabel. auto.
  - destruct (finalSegment_suffix isSeparator k) as [pre Hpre].
    exists (entryOf (declaredEdges xmlDoc) k cls), pre. simpl. rewrite Hlabel.
    split_and!; [done|done|]. right. apply finalSegment_plain.
Qed.

Lemma fallback_label_suffix_witness :
  exists node pre,
    JsMap.get
      [("http://ex.org/onto#Cell",
        {| id := "http://ex.org/onto#Cell"; label := "Cell"; description := "";
           children := []; parents := [] |})] "http://ex.org/onto#Cell" = Some node /\
    "http://ex.org/onto#Cell" = pre +:+ label node /\
    (label node = "http://ex.org/onto#Cell" \/ mentions isSeparator (label node) = false).
Proof.
  destruct (@fallback_label_suffix codeCollator (rdfRDF [owlClass "http://ex.org/onto#Cell" []]))
    as (data & Hdata & Hsuffix).
  vm_compute in Hdata. injection Hdata as <-.
  apply (Hsuffix _ (owlClass "http://ex.org/onto#Cell" [])); reflexivity.
Defined.
